(** * crawl.py: import resolution and the file-collecting traversal

    A shallow embedding of the dependency-discovery core of [src/crawl.py]
    ([should_ignore], [resolve_module], [resolve_import], [collect_files])
    together with the properties the specification states about it. *)

From Stdlib Require Import Ascii.
From stdpp Require Import gmap strings list fin_maps fin_sets.


(** ** Paths

    A path is the list of components of an absolute POSIX path: the list
    [[c1; ...; cn]] stands for the text ["/c1/.../cn"], and [[]] stands for
    ["/"].  The operations below are the [os.path] functions the program
    calls, restricted to absolute paths.  The components that come from a
    module name are Python identifiers, as [ast.parse] yields them: they
    hold no separator, so joining them is appending them.  The disk has no
    symbolic links, so a file is found at its normalised path. *)

Abbreviation path := (list string).

(** [os.path.normpath] on an absolute path: empty and ["."] components are
    dropped, [".."] removes the component before it and is dropped at the
    top. *)
Fixpoint normpath_loop (new_comps comps : path) : path :=
  match comps with
  | [] => new_comps
  | comp :: rest =>
      if bool_decide (comp = "" ∨ comp = ".") then normpath_loop new_comps rest
      else if bool_decide (comp = "..") then normpath_loop (removelast new_comps) rest
      else normpath_loop (new_comps ++ [comp]) rest
  end.

Definition normpath (p : path) : path := normpath_loop [] p.

(** [os.path.abspath]: the argument is absolute, so the working directory is
    not consulted and only the normalisation remains. *)
Definition abspath (p : path) : path := normpath p.

(** [os.path.dirname] of a normalised path: the last component is removed;
    the parent of ["/"] is ["/"]. *)
Definition dirname (p : path) : path := removelast p.

(** [os.path.join(base, *parts)] for components that hold no separator. *)
Definition path_join (base : path) (parts : list string) : path := base ++ parts.

(** [p + suffix] on the text of the path: the suffix lands on the last
    component, and ["/" + ".py"] is ["/.py"]. *)
Definition add_suffix (p : path) (suffix : string) : path :=
  match p with
  | [] => [suffix]
  | _ => removelast p ++ [default "" (last p) +:+ suffix]
  end.

Fixpoint common_prefix (s1 s2 : path) : path :=
  match s1, s2 with
  | c1 :: r1, c2 :: r2 =>
      if bool_decide (c1 = c2) then c1 :: common_prefix r1 r2 else []
  | _, _ => []
  end.

Definition is_real_comp (c : string) : bool :=
  bool_decide (c ≠ "" ∧ c ≠ ".").

(** [os.path.commonpath([p1, p2])]: empty and ["."] components are removed
    from both and the longest common run of leading components is kept. *)
Definition commonpath (p1 p2 : path) : path :=
  common_prefix (filter is_real_comp p1) (filter is_real_comp p2).

(** [os.path.relpath(p, start)]: climb out of what [start] does not share
    with [p], then descend; the empty result is ["."]. *)
Definition relpath (p start : path) : list string :=
  let start_list := filter (λ x, x ≠ "") (abspath start) in
  let path_list := filter (λ x, x ≠ "") (abspath p) in
  let i := length (common_prefix start_list path_list) in
  let rel_list := replicate (length start_list - i) ".." ++ drop i path_list in
  match rel_list with
  | [] => ["."]
  | _ => rel_list
  end.

(** [str.split(sep)] for a one-character separator. *)
Fixpoint split_on (sep : ascii) (s : string) : list string :=
  match s with
  | EmptyString => [""]
  | String c rest =>
      if bool_decide (c = sep) then "" :: split_on sep rest
      else match split_on sep rest with
           | [] => [String c ""]
           | h :: t => String c h :: t
           end
  end.

Definition split_dot (s : string) : list string := split_on "."%char s.

(** ** The file system snapshot *)

Inductive inode :=
  | RegularFile (content : string)   (* a regular file that can be read as UTF-8 text *)
  | UnreadableFile                    (* a regular file whose [open]/[read] raises *)
  | Directory.

(** Syntax-tree nodes that [collect_files] looks at: [ast.Import] with the
    names of its aliases, [ast.ImportFrom] with its [module] and [level]. *)
Inductive import_node :=
  | Import (names : list string)
  | ImportFrom (module : option string) (level : nat).

(** Lines written to standard output, and the reads that succeeded. *)
Inductive event :=
  | ReadOk (p : path)
  | ErrorReading (p : path)
  | ErrorParsing (p : path).

Global Instance event_eq_dec : EqDecision event.
Proof. solve_decision. Defined.

(** The [collected] dictionary keeps insertion order, so it is a list of
    (key, value) pairs with each key at most once. *)
Abbreviation dict := (list (path * string)).

Definition keys (d : dict) : list path := d.*1.

Definition dict_mem (k : path) (d : dict) : bool := bool_decide (k ∈ keys d).

(** [d[k] = v]: an existing key keeps its position, a new key goes last. *)
Definition dict_set (k : path) (v : string) (d : dict) : dict :=
  if dict_mem k d
  then (λ kv : path * string, if bool_decide (kv.1 = k) then (k, v) else kv) <$> d
  else d ++ [(k, v)].

Record state := State {
  collected : dict;
  out : list event
}.

Definition empty_state : state := State [] [].

(** Truth value of [node.module]: [None] and the empty string are false. *)
Definition truthy (m : option string) : bool :=
  match m with
  | Some s => bool_decide (s ≠ "")
  | None => false
  end.

(** A compiled [.gitignore] matcher ([spec.match_file] on the components of
    a relative path), or [None]. *)
Abbreviation ignore_spec := (option (list string → bool)).

Definition ignore_set : list string :=
  [".git"; ".gitignore"; ".gitmodules"; "venv"; ".venv"; "env"; "site-packages"].

(** [should_ignore(path, project_root, spec)]. *)
Definition should_ignore (p project_root : path) (spec : ignore_spec) : bool :=
  let norm_path := normpath p in
  let parts := "" :: norm_path in
  if bool_decide ("__pycache__" ∈ parts) then true
  else if existsb (λ part, bool_decide (part ∈ ignore_set)) parts then true
  else match spec with
       | Some match_file =>
           let rel := relpath p project_root in
           if match_file rel then true else false
       | None => false
       end.

Section Crawl.

(** The snapshot of the disk the run sees. *)
Context (fs : gmap path inode).

(** [ast.parse(content)] followed by the [ast.walk] filter: the import
    nodes of the file in the order [ast.walk] yields them, or [None] when
    [ast.parse] raises. *)
Context (parse : string → option (list import_node)).

(** [os.path.isfile]. *)
Definition isfile (p : path) : bool :=
  match fs !! normpath p with
  | Some (RegularFile _) | Some UnreadableFile => true
  | _ => false
  end.

(** [open(abs_path, "r", encoding="utf-8")] and [f.read()]; [None] when
    either raises. *)
Definition read_text (p : path) : option string :=
  match fs !! p with
  | Some (RegularFile content) => Some content
  | _ => None
  end.

(** [resolve_module(module_name, base_dir)]. *)
Definition resolve_module (module_name : string) (base_dir : path) : option path :=
  let parts := split_dot module_name in
  let file_path := add_suffix (path_join base_dir parts) ".py" in
  if isfile file_path then Some (abspath file_path)
  else
    let package_path := path_join base_dir (parts ++ ["__init__.py"]) in
    if isfile package_path then Some (abspath package_path)
    else None.

(** The body shared by the two absolute-import branches of
    [resolve_import]: the current file's directory first, then the
    project root. *)
Definition resolve_absolute (module_name : string) (current_file project_root : path)
  : option path :=
  let current_dir := dirname (abspath current_file) in
  match resolve_module module_name current_dir with
  | Some resolved => Some resolved
  | None => resolve_module module_name project_root
  end.

(** [resolve_import(node, current_file, project_root)]. *)
Definition resolve_import (node : import_node) (current_file project_root : path)
  : list path :=
  match node with
  | Import names =>
      foldl (λ results module_name,
               match resolve_absolute module_name current_file project_root with
               | Some resolved => results ++ [resolved]
               | None => results
               end) [] names
  | ImportFrom module level =>
      if bool_decide (level = 0) then
        if truthy module then
          match resolve_absolute (default "" module) current_file project_root with
          | Some resolved => [resolved]
          | None => []
          end
        else []
      else
        let current_dir :=
          Nat.iter (level - 1) dirname (dirname (abspath current_file)) in
        let candidate_dir :=
          if truthy module then path_join current_dir (split_dot (default "" module))
          else current_dir in
        let file_candidate := add_suffix candidate_dir ".py" in
        if isfile file_candidate then [abspath file_candidate]
        else
          let init_candidate := path_join candidate_dir ["__init__.py"] in
          if isfile init_candidate then [abspath init_candidate]
          else []
  end.

Context (project_root : path) (spec : ignore_spec).

(** The inner loop of [collect_files]: [for fp in file_paths]. *)
Fixpoint visit_paths (rec : path → state → option state)
    (file_paths : list path) (st : state) : option state :=
  match file_paths with
  | [] => Some st
  | fp :: rest =>
      if bool_decide (commonpath fp project_root = project_root) then
        match rec fp st with
        | Some st' => visit_paths rec rest st'
        | None => None
        end
      else visit_paths rec rest st
  end.

(** The outer loop of [collect_files]: [for node in ast.walk(tree)]. *)
Fixpoint visit_nodes (rec : path → state → option state)
    (abs_path : path) (nodes : list import_node) (st : state) : option state :=
  match nodes with
  | [] => Some st
  | node :: rest =>
      match visit_paths rec (resolve_import node abs_path project_root) st with
      | Some st' => visit_nodes rec abs_path rest st'
      | None => None
      end
  end.

(** [collect_files(file_path, project_root, spec, collected)].  The
    dictionary is shared by all recursive calls, so it is threaded through
    them as state; [fuel] bounds the depth of the recursion and [None]
    means the bound was hit. *)
Fixpoint collect_files (fuel : nat) (file_path : path) (st : state) : option state :=
  match fuel with
  | 0 => None
  | S fuel' =>
      let abs_path := abspath file_path in
      if dict_mem abs_path (collected st) then Some st
      else if should_ignore abs_path project_root spec then Some st
      else
        match read_text abs_path with
        | None => Some (State (collected st) (out st ++ [ErrorReading abs_path]))
        | Some content =>
            let st1 := State (dict_set abs_path content (collected st))
                             (out st ++ [ReadOk abs_path]) in
            match parse content with
            | None => Some (State (collected st1) (out st1 ++ [ErrorParsing abs_path]))
            | Some nodes => visit_nodes (collect_files fuel') abs_path nodes st1
            end
        end
  end.

(** A run from an entry file, as [main] starts it: a fresh dictionary and
    a recursion bound that no run on [fs] can reach. *)
Definition collect (entry_file : path) : option state :=
  collect_files (S (size fs)) entry_file empty_state.

End Crawl.

(** The three ways one call changes the state before it recurses. *)
Definition after_read_error (st : state) (p : path) : state :=
  State (collected st) (out st ++ [ErrorReading p]).
Definition after_record (st : state) (p : path) (content : string) : state :=
  State (dict_set p content (collected st)) (out st ++ [ReadOk p]).
Definition after_parse_error (st : state) (p : path) : state :=
  State (collected st) (out st ++ [ErrorParsing p]).

(** The paths of the successful reads in a log, oldest first. *)
Definition reads (log : list event) : list path :=
  omap (λ e, match e with ReadOk p => Some p | _ => None end) log.

(** What a call may add to the state: new entries after the old ones, each
    a file that was absent before, read once, and stored with the content
    the disk gave. *)
Definition extends (fs : gmap path inode) (st st' : state) : Prop :=
  ∃ added new_out,
    collected st' = collected st ++ added ∧
    out st' = out st ++ new_out ∧
    keys added = reads new_out ∧
    NoDup (keys added) ∧
    (∀ k, k ∈ keys added → k ∉ keys (collected st)) ∧
    (∀ k v, (k, v) ∈ added → read_text fs k = Some v).

(** The files of the disk that are not in the dictionary yet. *)
Definition pending (fs : gmap path inode) (d : dict) : gset path :=
  dom fs ∖ list_to_set (keys d).

(** The paths one file makes the walk recurse into: what its import nodes
    resolve to, node by node, kept when they pass the root test. *)
Definition import_targets (fs : gmap path inode) (project_root abs_path : path)
    (nodes : list import_node) : list path :=
  filter (λ fp, commonpath fp project_root = project_root)
         (nodes ≫= λ node, resolve_import fs node abs_path project_root).

(** The first of a list of candidate paths that is a regular file, made
    absolute. *)
Definition first_existing (fs : gmap path inode) (candidates : list path) : option path :=
  abspath <$> head (filter (λ c, isfile fs c = true) candidates).

(** ** A small concrete parser and concrete disks for the examples *)

Fixpoint strip_prefix (pre s : string) : option string :=
  match pre, s with
  | EmptyString, _ => Some s
  | String a pre', String b s' => if bool_decide (a = b) then strip_prefix pre' s' else None
  | String _ _, EmptyString => None
  end.

Fixpoint count_dots (s : string) : nat * string :=
  match s with
  | String c rest =>
      if bool_decide (c = "."%char) then let '(n, r) := count_dots rest in (S n, r)
      else (0, s)
  | EmptyString => (0, s)
  end.

(** One statement of the fragment: [import a.b,c], [from ..m import x],
    the unbalanced ["("] (a syntax error), or anything else (no import). *)
Definition toy_stmt (s : string) : option (list import_node) :=
  if bool_decide (s = "(") then None
  else match strip_prefix "import " s with
       | Some names => Some [Import (split_on ","%char names)]
       | None =>
           match strip_prefix "from " s with
           | Some rest =>
               let target := default "" (head (split_on " "%char rest)) in
               let '(level, m) := count_dots target in
               Some [ImportFrom (if bool_decide (m = "") then None else Some m) level]
           | None => Some []
           end
       end.

(** Statements are separated by [;]; one bad statement fails the file. *)
Definition toy_parse (content : string) : option (list import_node) :=
  foldr (λ s acc, match toy_stmt s, acc with
                  | Some ns, Some rest => Some (ns ++ rest)
                  | _, _ => None
                  end) (Some []) (split_on ";"%char content).

Definition cycle_fs : gmap path inode :=
  list_to_map [ (["proj"], Directory);
                (["proj"; "a.py"], RegularFile "import b");
                (["proj"; "b.py"], RegularFile "x = 1;import a") ].

(** A file that lies outside the project. *)
Definition outside_fs : gmap path inode :=
  list_to_map [ (["proj"], Directory);
                (["other"], Directory);
                (["other"; "a.py"], RegularFile "x = 1") ].

(** A module name that exists both next to the importing file and at the
    project root. *)
Definition precedence_fs : gmap path inode :=
  list_to_map [ (["proj"], Directory);
                (["proj"; "util.py"], RegularFile "x = 1");
                (["proj"; "pkg"], Directory);
                (["proj"; "pkg"; "util.py"], RegularFile "x = 2");
                (["proj"; "pkg"; "a.py"], RegularFile "import util") ].

(** A package with a sibling module and a module one level up. *)
Definition relative_fs : gmap path inode :=
  list_to_map [ (["proj"], Directory);
                (["proj"; "c.py"], RegularFile "x = 1");
                (["proj"; "pkg"], Directory);
                (["proj"; "pkg"; "__init__.py"], RegularFile "");
                (["proj"; "pkg"; "a.py"], RegularFile "from .b import f;from ..c import g");
                (["proj"; "pkg"; "b.py"], RegularFile "x = 2") ].

(** A package directory next to a file that carries the directory's name. *)
Definition shadow_fs : gmap path inode :=
  list_to_map [ (["proj"], Directory);
                (["proj"; "pkg.py"], RegularFile "x = 1");
                (["proj"; "pkg"], Directory);
                (["proj"; "pkg"; "__init__.py"], RegularFile "");
                (["proj"; "pkg"; "a.py"], RegularFile "from . import x") ].

(** An entry file that imports a file with a syntax error, a file that
    cannot be read, and a sound one. *)
Definition faulty_fs : gmap path inode :=
  list_to_map [ (["proj"], Directory);
                (["proj"; "a.py"], RegularFile "import broken;import locked;import good");
                (["proj"; "broken.py"], RegularFile "(");
                (["proj"; "locked.py"], UnreadableFile);
                (["proj"; "good.py"], RegularFile "x = 1") ].

(** ** What may differ between two runs

    The marker names of [should_ignore] are a Python set of strings, and
    the order in which a set holds its elements changes from one run of the
    interpreter to the next with the hash seed.  [should_ignore_in] is
    [should_ignore] with the set in the order [markers] that a run happens
    to get, and [collect_files_in] is [collect_files] in such a run. *)
Definition should_ignore_in (markers : list string) (p project_root : path)
    (spec : ignore_spec) : bool :=
  let norm_path := normpath p in
  let parts := "" :: norm_path in
  if bool_decide ("__pycache__" ∈ parts) then true
  else if existsb (λ part, bool_decide (part ∈ markers)) parts then true
  else match spec with
       | Some match_file =>
           let rel := relpath p project_root in
           if match_file rel then true else false
       | None => false
       end.

Fixpoint collect_files_in (markers : list string) (fs : gmap path inode)
    (parse : string → option (list import_node)) (project_root : path)
    (spec : ignore_spec) (fuel : nat) (file_path : path) (st : state) : option state :=
  match fuel with
  | 0 => None
  | S fuel' =>
      let abs_path := abspath file_path in
      if dict_mem abs_path (collected st) then Some st
      else if should_ignore_in markers abs_path project_root spec then Some st
      else
        match read_text fs abs_path with
        | None => Some (State (collected st) (out st ++ [ErrorReading abs_path]))
        | Some content =>
            let st1 := State (dict_set abs_path content (collected st))
                             (out st ++ [ReadOk abs_path]) in
            match parse content with
            | None => Some (State (collected st1) (out st1 ++ [ErrorParsing abs_path]))
            | Some nodes =>
                visit_nodes fs project_root
                  (collect_files_in markers fs parse project_root spec fuel')
                  abs_path nodes st1
            end
        end
  end.

(** ** The rest of the program: the repository root and [main] *)

(** [os.path.isdir]. *)
Definition isdir (fs : gmap path inode) (p : path) : bool :=
  match fs !! normpath p with
  | Some Directory => true
  | _ => false
  end.

(** [os.path.exists]. *)
Definition path_exists (fs : gmap path inode) (p : path) : bool :=
  bool_decide (is_Some (fs !! normpath p)).

(** [os.path.basename] of a normalised path: the last component, empty for
    ["/"]. *)
Definition basename (p : path) : string := default "" (last p).

(** The loop of [find_git_root].  The outer [None] means that [fuel] ran
    out before the loop ended; [Some None] is the [return None] of the
    source. *)
Fixpoint find_git_root_loop (fs : gmap path inode) (fuel : nat) (current_dir : path)
    : option (option path) :=
  if isdir fs (path_join current_dir [".git"]) then Some (Some current_dir)
  else
    let parent_dir := dirname current_dir in
    if bool_decide (parent_dir = current_dir) then Some None
    else match fuel with
         | 0 => None
         | S fuel' => find_git_root_loop fs fuel' parent_dir
         end.

(** [find_git_root(starting_directory)]: one turn of the loop for each
    component of the starting directory is all the loop can make. *)
Definition find_git_root (fs : gmap path inode) (starting_directory : path)
    : option (option path) :=
  let current_dir := abspath starting_directory in
  find_git_root_loop fs (length current_dir) current_dir.

(** What the loop returns: the longest leading part of [current_dir] that
    holds a [.git] directory, or nothing when no leading part holds one. *)
Definition git_root_of (fs : gmap path inode) (current_dir : path) (r : option path) : Prop :=
  match r with
  | Some g =>
      g `prefix_of` current_dir ∧
      isdir fs (g ++ [".git"]) = true ∧
      ∀ q, q `prefix_of` current_dir → isdir fs (q ++ [".git"]) = true → q `prefix_of` g
  | None =>
      ∀ q, q `prefix_of` current_dir → isdir fs (q ++ [".git"]) = false
  end.

(** What [main] and [load_gitignore_spec] print themselves. *)
Inductive message :=
  | UsageMessage
  | NotAFileMessage (starting_file : path)
  | GitignoreErrorMessage
  | PathspecMissingMessage
  | CollectedMessage (count : nat) (output_file : string).

(** [load_gitignore_spec(project_root)].  [pathspec] tells whether the
    [pathspec] module could be imported, and [from_lines] stands for
    [splitlines] followed by [pathspec.PathSpec.from_lines], [None] when
    that raises.  The result comes with the line the function prints. *)
Definition load_gitignore_spec (fs : gmap path inode) (pathspec : bool)
    (from_lines : string → option (list string → bool)) (project_root : path)
    : ignore_spec * list message :=
  let gitignore_path := path_join project_root [".gitignore"] in
  if path_exists fs gitignore_path && pathspec then
    match read_text fs (abspath gitignore_path) with
    | Some text =>
        match from_lines text with
        | Some spec => (Some spec, [])
        | None => (None, [GitignoreErrorMessage])
        end
    | None => (None, [GitignoreErrorMessage])
    end
  else (None, []).

(** How a run of [main] ends: [sys.exit(1)] after a message, or the report
    written.  The text of the report needs the clock, the interpreter and
    [git], so [Reported] carries what the text is made from: the root, the
    name of the output file, what was printed, and the state the traversal
    returned.  Writing the output file is taken to succeed. *)
Inductive outcome :=
  | Exit1 (printed : list message)
  | Reported (project_root : path) (output_file : string)
             (printed : list message) (st : state).

(** [main()] with [sys.argv] as [argv].  [None] means that a recursion
    bound was hit. *)
Definition main (fs : gmap path inode) (parse : string → option (list import_node))
    (pathspec : bool) (from_lines : string → option (list string → bool))
    (argv : list path) : option outcome :=
  match argv with
  | [_; starting_file] =>
      if isfile fs starting_file then
        let starting_dir := dirname (abspath starting_file) in
        git_root ← find_git_root fs starting_dir;
        let project_root := default starting_dir git_root in
        let project_name := basename project_root in
        let '(spec, printed) := load_gitignore_spec fs pathspec from_lines project_root in
        let printed :=
          if negb (bool_decide (is_Some spec)) && negb pathspec
          then printed ++ [PathspecMissingMessage] else printed in
        st ← collect_files fs parse project_root spec (S (size fs)) starting_file empty_state;
        let output_file := project_name +:+ "_collected_code.txt" in
        Some (Reported project_root output_file
                (printed ++ [CollectedMessage (length (collected st)) output_file]) st)
      else Some (Exit1 [NotAFileMessage starting_file])
  | _ => Some (Exit1 [UsageMessage])
  end.

(** ** Reachability through imports *)

(** A file the traversal records when it comes to it. *)
Definition visitable (fs : gmap path inode) (project_root : path) (spec : ignore_spec)
    (p : path) : Prop :=
  should_ignore p project_root spec = false ∧ is_Some (read_text fs p).

(** [reach a k]: [k] is [a], or an import target of [a] from which [k] is
    reached; every file on the way is one the traversal records. *)
Inductive reach (fs : gmap path inode) (parse : string → option (list import_node))
    (project_root : path) (spec : ignore_spec) : path → path → Prop :=
  | reach_here a :
      visitable fs project_root spec a →
      reach fs parse project_root spec a a
  | reach_via a t k content nodes :
      visitable fs project_root spec a →
      read_text fs a = Some content →
      parse content = Some nodes →
      t ∈ import_targets fs project_root a nodes →
      reach fs parse project_root spec t k →
      reach fs parse project_root spec a k.

(** ** The traversal as a relation

    [visit fp st st']: a call of [collect_files] on [fp] in state [st]
    returns in state [st'].  One rule for each way through the body of the
    function; [visit_all] is the two loops, run over the import targets of
    the file. *)
Inductive visit (fs : gmap path inode) (parse : string → option (list import_node))
    (project_root : path) (spec : ignore_spec) : path → state → state → Prop :=
  | visit_present fp st :
      abspath fp ∈ keys (collected st) →
      visit fs parse project_root spec fp st st
  | visit_ignored fp st :
      abspath fp ∉ keys (collected st) →
      should_ignore (abspath fp) project_root spec = true →
      visit fs parse project_root spec fp st st
  | visit_unreadable fp st :
      abspath fp ∉ keys (collected st) →
      should_ignore (abspath fp) project_root spec = false →
      read_text fs (abspath fp) = None →
      visit fs parse project_root spec fp st (after_read_error st (abspath fp))
  | visit_unparsable fp st content :
      abspath fp ∉ keys (collected st) →
      should_ignore (abspath fp) project_root spec = false →
      read_text fs (abspath fp) = Some content →
      parse content = None →
      visit fs parse project_root spec fp st
        (after_parse_error (after_record st (abspath fp) content) (abspath fp))
  | visit_imports fp st content nodes st' :
      abspath fp ∉ keys (collected st) →
      should_ignore (abspath fp) project_root spec = false →
      read_text fs (abspath fp) = Some content →
      parse content = Some nodes →
      visit_all fs parse project_root spec
        (import_targets fs project_root (abspath fp) nodes)
        (after_record st (abspath fp) content) st' →
      visit fs parse project_root spec fp st st'
with visit_all (fs : gmap path inode) (parse : string → option (list import_node))
    (project_root : path) (spec : ignore_spec) : list path → state → state → Prop :=
  | visit_all_nil st :
      visit_all fs parse project_root spec [] st st
  | visit_all_cons fp rest st st1 st2 :
      visit fs parse project_root spec fp st st1 →
      visit_all fs parse project_root spec rest st1 st2 →
      visit_all fs parse project_root spec (fp :: rest) st st2.

Scheme visit_mut := Minimality for visit Sort Prop
  with visit_all_mut := Minimality for visit_all Sort Prop.

Combined Scheme visit_mutind from visit_mut, visit_all_mut.

(** What a finished traversal knows about a path it was asked to visit:
    it is a key, or it was ignored, or it could not be read. *)
Definition settled (fs : gmap path inode) (project_root : path) (spec : ignore_spec)
    (st : state) (p : path) : Prop :=
  p ∈ keys (collected st) ∨
  should_ignore p project_root spec = true ∨
  read_text fs p = None.

(** A key all of whose import targets are settled. *)
Definition closed_key (fs : gmap path inode) (parse : string → option (list import_node))
    (project_root : path) (spec : ignore_spec) (st : state) (k : path) : Prop :=
  ∀ content nodes t,
    read_text fs k = Some content →
    parse content = Some nodes →
    t ∈ import_targets fs project_root k nodes →
    settled fs project_root spec st t.

(** What a line of the log says, checked against the disk and the
    dictionary. *)
Definition truthful (fs : gmap path inode) (parse : string → option (list import_node))
    (project_root : path) (spec : ignore_spec) (st : state) (e : event) : Prop :=
  match e with
  | ReadOk p => ∃ content, (p, content) ∈ collected st ∧ read_text fs p = Some content
  | ErrorReading p =>
      read_text fs p = None ∧ should_ignore p project_root spec = false
  | ErrorParsing p =>
      ∃ content, (p, content) ∈ collected st ∧ parse content = None
  end.

(** A dotted name as the parser yields it: no component is empty or holds
    a separator. *)
Fixpoint contains_char (ch : ascii) (s : string) : bool :=
  match s with
  | EmptyString => false
  | String c rest => bool_decide (c = ch) || contains_char ch rest
  end.

Definition is_dotted_name (m : string) : bool :=
  forallb (λ c, bool_decide (c ≠ "") && negb (contains_char "/"%char c)) (split_dot m).

(** A repository with a nested checkout, an ignore file and a cache. *)
Definition repo_fs : gmap path inode :=
  list_to_map [ (["home"], Directory);
                (["home"; "repo"], Directory);
                (["home"; "repo"; ".git"], Directory);
                (["home"; "repo"; ".gitignore"], RegularFile "build");
                (["home"; "repo"; "main.py"], RegularFile "import app.core;import build.gen");
                (["home"; "repo"; "app"], Directory);
                (["home"; "repo"; "app"; "core.py"], RegularFile "from . import helpers;import os");
                (["home"; "repo"; "app"; "__init__.py"], RegularFile "");
                (["home"; "repo"; "build"], Directory);
                (["home"; "repo"; "build"; "gen.py"], RegularFile "x = 1");
                (["home"; "repo"; "vendor"], Directory);
                (["home"; "repo"; "vendor"; ".git"], RegularFile "gitdir: elsewhere");
                (["home"; "repo"; "vendor"; "lib.py"], RegularFile "import app.core") ].

(** A stand-in for [pathspec]: each line of the text is a name, and a path
    matches when one of its components is such a name. *)
Definition toy_from_lines (text : string) : option (list string → bool) :=
  if bool_decide (text = "[") then None
  else Some (λ rel, existsb (λ c, bool_decide (c ∈ split_on ";"%char text)) rel).

(** ** Facts about paths *)

(** A normalised path: no empty, ["."] or [".."] component. *)
Definition clean (p : path) : Prop :=
  Forall (λ c, c ≠ "" ∧ c ≠ "." ∧ c ≠ "..") p.

Lemma removelast_take {A} (l : list A) : removelast l = take (length l - 1) l.
Proof.
  induction l as [|a [|b l] IH]; [done..|].
  change (removelast (a :: b :: l)) with (a :: removelast (b :: l)).
  rewrite IH. simpl. by rewrite Nat.sub_0_r.
Qed.

Lemma clean_removelast p : clean p → clean (removelast p).
Proof. rewrite removelast_take. apply Forall_take. Qed.

Lemma normpath_loop_clean acc comps :
  clean acc → clean (normpath_loop acc comps).
Proof.
  revert acc. induction comps as [|c rest IH]; intros acc Hacc; simpl; [done|].
  case_bool_decide as H1; [by apply IH|].
  case_bool_decide as H2; [by apply IH, clean_removelast|].
  apply IH, Forall_app. split; [done|]. apply Forall_singleton. naive_solver.
Qed.

Lemma normpath_loop_id acc comps :
  clean comps → normpath_loop acc comps = acc ++ comps.
Proof.
  revert acc. induction comps as [|c rest IH]; intros acc Hc; simpl.
  - by rewrite app_nil_r.
  - apply Forall_cons in Hc as [(H1 & H2 & H3) Hrest].
    rewrite bool_decide_eq_false_2 by (intros [?|?]; done).
    rewrite bool_decide_eq_false_2 by done.
    rewrite IH by done. by rewrite <- app_assoc.
Qed.

Lemma abspath_clean p : clean (abspath p).
Proof. apply normpath_loop_clean, Forall_nil_2. Qed.

Lemma abspath_of_clean p : clean p → abspath p = p.
Proof. intros H. unfold abspath, normpath. by rewrite normpath_loop_id. Qed.

Lemma abspath_idem p : abspath (abspath p) = abspath p.
Proof. apply abspath_of_clean, abspath_clean. Qed.

Lemma common_prefix_l s1 s2 : common_prefix s1 s2 `prefix_of` s1.
Proof.
  revert s2. induction s1 as [|c1 r1 IH]; intros [|c2 r2]; simpl;
    try apply prefix_nil.
  case_bool_decide; [|apply prefix_nil]. by apply prefix_cons.
Qed.

Lemma common_prefix_of_prefix s1 s2 : s2 `prefix_of` s1 → common_prefix s1 s2 = s2.
Proof.
  intros [k ->]. induction s2 as [|c r IH]; simpl; [by destruct k|].
  rewrite bool_decide_eq_true_2 by done. by rewrite IH.
Qed.

Lemma filter_real_clean p : clean p → filter is_real_comp p = p.
Proof.
  induction 1 as [|c r (H1 & H2 & H3) Hr IH]; [done|].
  rewrite filter_cons_True; [by rewrite IH|].
  unfold is_real_comp. by apply bool_decide_pack.
Qed.

(** The test [os.path.commonpath([fp, root]) == root] compares whole
    components: it holds only when the components of [root] lead [fp]. *)
Lemma commonpath_within fp root :
  clean fp → commonpath fp root = root → root `prefix_of` fp.
Proof.
  intros Hfp Heq. unfold commonpath in Heq. rewrite filter_real_clean in Heq by done.
  rewrite <- Heq at 1. apply common_prefix_l.
Qed.

Lemma commonpath_of_prefix fp root :
  clean fp → clean root → root `prefix_of` fp → commonpath fp root = root.
Proof.
  intros Hfp Hroot Hpre. unfold commonpath.
  rewrite !filter_real_clean by done. by apply common_prefix_of_prefix.
Qed.

(** ** Facts about the dictionary *)

Lemma dict_mem_false k d : dict_mem k d = false ↔ k ∉ keys d.
Proof. unfold dict_mem. by rewrite bool_decide_eq_false. Qed.

Lemma dict_mem_true k d : dict_mem k d = true ↔ k ∈ keys d.
Proof. unfold dict_mem. by rewrite bool_decide_eq_true. Qed.

Lemma dict_set_fresh k v d : dict_mem k d = false → dict_set k v d = d ++ [(k, v)].
Proof. intros H. unfold dict_set. by rewrite H. Qed.

Lemma keys_app d1 d2 : keys (d1 ++ d2) = keys d1 ++ keys d2.
Proof. unfold keys. apply fmap_app. Qed.

(** ** The traversal, step by step *)

Section CrawlFacts.

Context (fs : gmap path inode) (parse : string → option (list import_node)).
Context (project_root : path) (spec : ignore_spec).

Local Abbreviation crawl := (collect_files fs parse project_root spec).
Local Abbreviation paths_loop := (visit_paths project_root).
Local Abbreviation nodes_loop := (visit_nodes fs project_root).

Lemma collect_files_unfold fuel file_path st :
  crawl (S fuel) file_path st =
    let abs_path := abspath file_path in
    if dict_mem abs_path (collected st) then Some st
    else if should_ignore abs_path project_root spec then Some st
    else match read_text fs abs_path with
         | None => Some (after_read_error st abs_path)
         | Some content =>
             match parse content with
             | None => Some (after_parse_error (after_record st abs_path content) abs_path)
             | Some nodes =>
                 nodes_loop (crawl fuel) abs_path nodes (after_record st abs_path content)
             end
         end.
Proof. reflexivity. Qed.

(** Every path [resolve_import] returns is normalised. *)
Lemma resolve_module_clean m base r :
  resolve_module fs m base = Some r → clean r.
Proof.
  unfold resolve_module. repeat case_match; intros [= <-]; apply abspath_clean.
Qed.

Lemma resolve_absolute_clean m cur r :
  resolve_absolute fs m cur project_root = Some r → clean r.
Proof.
  unfold resolve_absolute. case_match eqn:E.
  - intros [= <-]. eauto using resolve_module_clean.
  - eauto using resolve_module_clean.
Qed.

(** The loop over the aliases of an [import] statement keeps, in order,
    the names that resolve. *)
Lemma import_loop_omap cur names acc :
  foldl (λ results module_name,
           match resolve_absolute fs module_name cur project_root with
           | Some resolved => results ++ [resolved]
           | None => results
           end) acc names
  = acc ++ omap (λ m, resolve_absolute fs m cur project_root) names.
Proof.
  revert acc. induction names as [|n names IH]; intros acc; simpl.
  - by rewrite app_nil_r.
  - rewrite IH. destruct (resolve_absolute fs n cur project_root); [|done].
    by rewrite <- app_assoc.
Qed.

Lemma resolve_import_clean node cur :
  Forall clean (resolve_import fs node cur project_root).
Proof.
  destruct node as [names|module level]; simpl.
  - rewrite import_loop_omap. simpl. apply Forall_forall. intros r Hr.
    apply list_elem_of_omap in Hr as (m & _ & Hm).
    eauto using resolve_absolute_clean.
  - repeat case_match; repeat constructor;
      eauto using resolve_absolute_clean, abspath_clean.
Qed.

(** *** An induction principle for the traversal

    [P] relates the state before a call with the state after it; [Q]
    holds of the file a call is made on.  If [P] is a preorder that
    contains the three elementary steps, every call is in [P]. *)
Section Induction.

Context (Q : path → Prop) (P : state → state → Prop).
Hypothesis P_refl : ∀ st, P st st.
Hypothesis P_trans : ∀ a b c, P a b → P b c → P a c.
Hypothesis Q_import :
  ∀ fp, clean fp → commonpath fp project_root = project_root → Q fp.
Hypothesis P_read_error : ∀ st fp, P st (after_read_error st (abspath fp)).
Hypothesis P_record :
  ∀ st fp content,
    Q fp →
    dict_mem (abspath fp) (collected st) = false →
    should_ignore (abspath fp) project_root spec = false →
    read_text fs (abspath fp) = Some content →
    P st (after_record st (abspath fp) content).
Hypothesis P_parse_error : ∀ st fp, P st (after_parse_error st (abspath fp)).

Lemma visit_paths_ind_step (rec : path → state → option state) :
  (∀ fp st st', Q fp → rec fp st = Some st' → P st st') →
  ∀ fps st st', Forall clean fps → paths_loop rec fps st = Some st' → P st st'.
Proof.
  intros Hrec fps. induction fps as [|fp rest IH]; intros st st' Hcl; simpl.
  - by intros [= <-].
  - apply Forall_cons in Hcl as [Hfp Hrest].
    case_bool_decide as Hin; [|by apply IH].
    destruct (rec fp st) as [st1|] eqn:E; [|done].
    intros Hloop. eapply P_trans; [eapply Hrec; eauto|by apply IH].
Qed.

Lemma visit_nodes_ind_step (rec : path → state → option state) abs_path :
  (∀ fp st st', Q fp → rec fp st = Some st' → P st st') →
  ∀ nodes st st', nodes_loop rec abs_path nodes st = Some st' → P st st'.
Proof.
  intros Hrec nodes. induction nodes as [|node rest IH]; intros st st'; simpl.
  - by intros [= <-].
  - destruct (paths_loop rec _ st) as [st1|] eqn:E; [|done].
    intros Hloop. eapply P_trans; [|by apply IH].
    eapply visit_paths_ind_step; eauto using resolve_import_clean.
Qed.

Lemma collect_files_ind fuel :
  ∀ fp st st', Q fp → crawl fuel fp st = Some st' → P st st'.
Proof.
  induction fuel as [|fuel IH]; intros fp st st' HQ; [done|].
  rewrite collect_files_unfold. cbv zeta.
  destruct (dict_mem _ _) eqn:Hmem; [by intros [= <-]|].
  destruct (should_ignore _ _ _) eqn:Hign; [by intros [= <-]|].
  destruct (read_text _ _) as [content|] eqn:Hread; [|by intros [= <-]].
  destruct (parse content) as [nodes|] eqn:Hparse.
  - intros Hloop. eapply P_trans; [by apply P_record|].
    eapply visit_nodes_ind_step; eauto.
  - intros [= <-]. eapply P_trans; [by apply P_record|apply P_parse_error].
Qed.

End Induction.

(** *** What a call adds *)

Lemma extends_refl st : extends fs st st.
Proof.
  exists [], []. rewrite !app_nil_r. repeat split; try done.
  - constructor.
  - intros k Hk. by apply elem_of_nil in Hk.
  - intros k v Hk. by apply elem_of_nil in Hk.
Qed.

Lemma extends_trans a b c : extends fs a b → extends fs b c → extends fs a c.
Proof.
  intros (a1 & o1 & Hc1 & Ho1 & Hk1 & Hnd1 & Hfr1 & Hrd1)
         (a2 & o2 & Hc2 & Ho2 & Hk2 & Hnd2 & Hfr2 & Hrd2).
  exists (a1 ++ a2), (o1 ++ o2).
  assert (Hdisj : ∀ k, k ∈ keys a2 → (k ∉ keys (collected a)) ∧ (k ∉ keys a1)).
  { intros k Hk. apply Hfr2 in Hk. rewrite Hc1, keys_app in Hk.
    rewrite elem_of_app in Hk. tauto. }
  repeat split.
  - by rewrite Hc2, Hc1, <- app_assoc.
  - by rewrite Ho2, Ho1, <- app_assoc.
  - unfold reads. rewrite keys_app, omap_app. by f_equal.
  - rewrite keys_app. apply NoDup_app. repeat split; [done| |done].
    intros k Hk1' Hk2'. by apply Hdisj in Hk2' as [_ ?].
  - intros k. rewrite keys_app, elem_of_app. intros [Hk|Hk]; [by apply Hfr1|].
    by apply Hdisj in Hk as [? _].
  - intros k v. rewrite elem_of_app. intros [Hk|Hk]; eauto.
Qed.

Lemma extends_read_error st p : extends fs st (after_read_error st p).
Proof.
  exists [], [ErrorReading p]. simpl. rewrite app_nil_r. repeat split; try done.
  - constructor.
  - intros k Hk. by apply elem_of_nil in Hk.
  - intros k v Hk. by apply elem_of_nil in Hk.
Qed.

Lemma extends_parse_error st p : extends fs st (after_parse_error st p).
Proof.
  exists [], [ErrorParsing p]. simpl. rewrite app_nil_r. repeat split; try done.
  - constructor.
  - intros k Hk. by apply elem_of_nil in Hk.
  - intros k v Hk. by apply elem_of_nil in Hk.
Qed.

Lemma extends_record st p content :
  dict_mem p (collected st) = false →
  read_text fs p = Some content →
  extends fs st (after_record st p content).
Proof.
  intros Hmem Hread. exists [(p, content)], [ReadOk p]. simpl.
  rewrite dict_set_fresh by done. repeat split; try done.
  - apply NoDup_singleton.
  - intros k Hk. apply list_elem_of_singleton in Hk as ->. by apply dict_mem_false.
  - intros k v Hk. apply list_elem_of_singleton in Hk. by simplify_eq.
Qed.

Lemma collect_files_extends fuel fp st st' :
  crawl fuel fp st = Some st' → extends fs st st'.
Proof.
  apply (collect_files_ind (λ _, True) (extends fs));
    eauto using extends_refl, extends_trans, extends_read_error,
                extends_parse_error, extends_record.
Qed.

(** *** Termination

    Each file the walk records leaves the set of pending files, and
    nothing ever comes back into it, so a recursion bound above the number
    of pending files is never hit. *)

Lemma pending_extends st st' :
  extends fs st st' →
  size (pending fs (collected st')) ≤ size (pending fs (collected st)).
Proof.
  intros (added & _ & Hc & _). apply subseteq_size. unfold pending.
  rewrite Hc, keys_app. set_solver.
Qed.

Lemma pending_record st p content :
  dict_mem p (collected st) = false →
  read_text fs p = Some content →
  size (pending fs (collected (after_record st p content)))
  < size (pending fs (collected st)).
Proof.
  intros Hmem Hread. apply subset_size. unfold pending. simpl.
  rewrite dict_set_fresh, keys_app by done. simpl.
  apply dict_mem_false in Hmem.
  assert (p ∈ dom fs).
  { apply elem_of_dom. unfold read_text in Hread.
    destruct (fs !! p); [by eexists|done]. }
  set_solver.
Qed.

Lemma visit_paths_total (rec : path → state → option state) n :
  (∀ fp st, size (pending fs (collected st)) < n → is_Some (rec fp st)) →
  (∀ fp st st', rec fp st = Some st' → extends fs st st') →
  ∀ fps st, size (pending fs (collected st)) < n →
    ∃ st', paths_loop rec fps st = Some st' ∧ extends fs st st'.
Proof.
  intros Htot Hext fps. induction fps as [|fp rest IH]; intros st Hlt; simpl.
  - eauto using extends_refl.
  - case_bool_decide; [|by apply IH].
    destruct (Htot fp st Hlt) as [st1 E]. rewrite E.
    pose proof (Hext _ _ _ E) as Hst1.
    destruct (IH st1) as (st' & Hloop & Hst').
    { pose proof (pending_extends _ _ Hst1). lia. }
    eauto using extends_trans.
Qed.

Lemma visit_nodes_total (rec : path → state → option state) abs_path n :
  (∀ fp st, size (pending fs (collected st)) < n → is_Some (rec fp st)) →
  (∀ fp st st', rec fp st = Some st' → extends fs st st') →
  ∀ nodes st, size (pending fs (collected st)) < n →
    ∃ st', nodes_loop rec abs_path nodes st = Some st' ∧ extends fs st st'.
Proof.
  intros Htot Hext nodes. induction nodes as [|node rest IH]; intros st Hlt; simpl.
  - eauto using extends_refl.
  - destruct (visit_paths_total rec n Htot Hext
                (resolve_import fs node abs_path project_root) st Hlt)
      as (st1 & E & Hst1).
    rewrite E. destruct (IH st1) as (st' & Hloop & Hst').
    { pose proof (pending_extends _ _ Hst1). lia. }
    eauto using extends_trans.
Qed.

Lemma collect_files_total fuel :
  ∀ fp st, size (pending fs (collected st)) < fuel → is_Some (crawl fuel fp st).
Proof.
  induction fuel as [|fuel IH]; intros fp st Hlt; [lia|].
  rewrite collect_files_unfold. cbv zeta.
  destruct (dict_mem _ _) eqn:Hmem; [done|].
  destruct (should_ignore _ _ _) eqn:Hign; [done|].
  destruct (read_text _ _) as [content|] eqn:Hread; [|done].
  destruct (parse content) as [nodes|] eqn:Hparse; [|done].
  pose proof (pending_record st _ _ Hmem Hread) as Hdec.
  destruct (visit_nodes_total (crawl fuel) (abspath fp) fuel IH
              (collect_files_extends fuel) nodes
              (after_record st (abspath fp) content)) as (st' & -> & _); [lia|done].
Qed.

(** A larger recursion bound changes nothing once a call returns. *)
Lemma visit_paths_mono (rec1 rec2 : path → state → option state) :
  (∀ fp st st', rec1 fp st = Some st' → rec2 fp st = Some st') →
  ∀ fps st st', paths_loop rec1 fps st = Some st' → paths_loop rec2 fps st = Some st'.
Proof.
  intros Hrec fps. induction fps as [|fp rest IH]; intros st st'; simpl; [done|].
  case_bool_decide; [|by apply IH].
  destruct (rec1 fp st) as [st1|] eqn:E; [|done].
  rewrite (Hrec _ _ _ E). apply IH.
Qed.

Lemma visit_nodes_mono (rec1 rec2 : path → state → option state) abs_path :
  (∀ fp st st', rec1 fp st = Some st' → rec2 fp st = Some st') →
  ∀ nodes st st',
    nodes_loop rec1 abs_path nodes st = Some st' →
    nodes_loop rec2 abs_path nodes st = Some st'.
Proof.
  intros Hrec nodes. induction nodes as [|node rest IH]; intros st st'; simpl; [done|].
  destruct (paths_loop rec1 _ st) as [st1|] eqn:E; [|done].
  rewrite (visit_paths_mono rec1 rec2 Hrec _ _ _ E). apply IH.
Qed.

Lemma collect_files_mono fuel1 :
  ∀ fuel2 fp st st',
    fuel1 ≤ fuel2 → crawl fuel1 fp st = Some st' → crawl fuel2 fp st = Some st'.
Proof.
  induction fuel1 as [|fuel1 IH]; intros fuel2 fp st st' Hle; [done|].
  destruct fuel2 as [|fuel2]; [lia|].
  rewrite !collect_files_unfold. cbv zeta.
  repeat case_match; try done.
  apply visit_nodes_mono. intros ???. apply IH. lia.
Qed.

Lemma collect_files_fuel_irrelevant fuel1 fuel2 fp st st1 st2 :
  crawl fuel1 fp st = Some st1 → crawl fuel2 fp st = Some st2 → st1 = st2.
Proof.
  intros H1 H2. destruct (Nat.le_ge_cases fuel1 fuel2) as [Hle|Hle].
  - apply (collect_files_mono _ _ _ _ _ Hle) in H1. congruence.
  - apply (collect_files_mono _ _ _ _ _ Hle) in H2. congruence.
Qed.

Lemma pending_empty : size (pending fs (collected empty_state)) = size fs.
Proof.
  unfold pending. simpl. rewrite difference_empty_L. apply size_dom.
Qed.

Lemma collect_total entry : is_Some (collect fs parse project_root spec entry).
Proof. apply collect_files_total. rewrite pending_empty. lia. Qed.

(** *** The loops as one pass over the import targets *)

Lemma visit_paths_app (rec : path → state → option state) l1 l2 st :
  paths_loop rec (l1 ++ l2) st = paths_loop rec l1 st ≫= paths_loop rec l2.
Proof.
  revert st. induction l1 as [|fp l1 IH]; intros st; simpl; [done|].
  case_bool_decide; [|apply IH].
  destruct (rec fp st); simpl; [apply IH|done].
Qed.

Lemma visit_paths_filter (rec : path → state → option state) l st :
  paths_loop rec (filter (λ fp, commonpath fp project_root = project_root) l) st
  = paths_loop rec l st.
Proof.
  revert st. induction l as [|fp l IH]; intros st; [done|].
  destruct (decide (commonpath fp project_root = project_root)) as [Hin|Hout].
  - rewrite filter_cons_True by done. simpl.
    rewrite bool_decide_eq_true_2 by done. destruct (rec fp st); [apply IH|done].
  - rewrite filter_cons_False by done. simpl.
    rewrite bool_decide_eq_false_2 by done. apply IH.
Qed.

Lemma visit_nodes_targets (rec : path → state → option state) abs_path nodes st :
  nodes_loop rec abs_path nodes st
  = paths_loop rec (import_targets fs project_root abs_path nodes) st.
Proof.
  unfold import_targets. rewrite visit_paths_filter.
  revert st. induction nodes as [|node rest IH]; intros st; simpl; [done|].
  rewrite visit_paths_app. destruct (paths_loop rec _ st); simpl; [apply IH|done].
Qed.

Lemma import_targets_clean abs_path nodes :
  Forall clean (import_targets fs project_root abs_path nodes).
Proof.
  unfold import_targets. apply Forall_forall. intros fp Hfp.
  apply list_elem_of_filter in Hfp as [_ Hfp].
  apply list_elem_of_bind in Hfp as (node & Hfp & _).
  pose proof (resolve_import_clean node abs_path) as Hcl.
  by apply (proj1 (Forall_forall _ _) Hcl).
Qed.

(** A call on a file that is already in the dictionary returns at once. *)
Lemma collect_files_present fuel fp st :
  abspath fp ∈ keys (collected st) → crawl (S fuel) fp st = Some st.
Proof.
  intros Hin. rewrite collect_files_unfold. cbv zeta.
  by rewrite (proj2 (dict_mem_true _ _) Hin).
Qed.

Lemma visit_paths_present fuel fps st :
  Forall (λ fp, abspath fp ∈ keys (collected st)) fps →
  paths_loop (crawl (S fuel)) fps st = Some st.
Proof.
  induction 1 as [|fp rest Hfp _ IH]; cbn [visit_paths]; [done|].
  case_bool_decide; [|done]. by rewrite collect_files_present.
Qed.

(** *** Every recorded file is inside the root and not ignored *)

Lemma collect_files_safe fuel fp st st' :
  project_root `prefix_of` abspath fp →
  crawl fuel fp st = Some st' →
  ∀ k, k ∈ keys (collected st') →
       k ∈ keys (collected st) ∨
       (project_root `prefix_of` k ∧ should_ignore k project_root spec = false).
Proof.
  apply (collect_files_ind
           (λ fp, project_root `prefix_of` abspath fp)
           (λ st st', ∀ k, k ∈ keys (collected st') →
              k ∈ keys (collected st) ∨
              (project_root `prefix_of` k ∧ should_ignore k project_root spec = false))).
  - auto.
  - intros a b c Hab Hbc k Hk. destruct (Hbc k Hk) as [Hk'|?]; auto.
  - intros p Hcl Hin. rewrite abspath_of_clean by done. by apply commonpath_within.
  - auto.
  - intros st0 p content HQ Hmem Hign Hread k. simpl.
    rewrite dict_set_fresh, keys_app by done. simpl.
    rewrite elem_of_app, list_elem_of_singleton. intros [?| ->]; auto.
  - auto.
Qed.

(** *** Two files that import each other *)

Lemma after_record_fresh st p content :
  p ∉ keys (collected st) →
  after_record st p content
  = State (collected st ++ [(p, content)]) (out st ++ [ReadOk p]).
Proof.
  intros Hp. unfold after_record. by rewrite dict_set_fresh by by apply dict_mem_false.
Qed.

Lemma collect_files_leaf fuel fp st content :
  abspath fp ∉ keys (collected st) →
  should_ignore (abspath fp) project_root spec = false →
  read_text fs (abspath fp) = Some content →
  ∀ nodes, parse content = Some nodes →
  crawl (S fuel) fp st
  = paths_loop (crawl fuel)
      (import_targets fs project_root (abspath fp) nodes)
      (State (collected st ++ [(abspath fp, content)]) (out st ++ [ReadOk (abspath fp)])).
Proof.
  intros Hp Hign Hread nodes Hparse. rewrite collect_files_unfold. cbv zeta.
  rewrite (proj2 (dict_mem_false _ _) Hp), Hign, Hread, Hparse.
  by rewrite visit_nodes_targets, after_record_fresh.
Qed.

Lemma two_file_cycle A B cA cB nodesA nodesB :
  clean A → A ≠ B →
  should_ignore A project_root spec = false →
  should_ignore B project_root spec = false →
  read_text fs A = Some cA → read_text fs B = Some cB →
  parse cA = Some nodesA → parse cB = Some nodesB →
  B ∈ import_targets fs project_root A nodesA →
  Forall (λ x, x = A ∨ x = B) (import_targets fs project_root A nodesA) →
  Forall (λ x, x = A ∨ x = B) (import_targets fs project_root B nodesB) →
  crawl 3 A empty_state = Some (State [(A, cA); (B, cB)] [ReadOk A; ReadOk B]).
Proof.
  intros HA Hne HignA HignB HrA HrB HpA HpB HB HtA HtB.
  assert (clean B) as HBc.
  { by apply (proj1 (Forall_forall _ _) (import_targets_clean A nodesA)). }
  assert (commonpath B project_root = project_root) as HBin.
  { unfold import_targets in HB. by apply list_elem_of_filter in HB as [? _]. }
  pose proof (abspath_of_clean A HA) as EA.
  pose proof (abspath_of_clean B HBc) as EB.
  set (st1 := State [(A, cA)] [ReadOk A]).
  set (st2 := State [(A, cA); (B, cB)] [ReadOk A; ReadOk B]).
  assert (Hdone : ∀ fuel l, Forall (λ x, x = A ∨ x = B) l →
            paths_loop (crawl (S fuel)) l st2 = Some st2).
  { intros fuel l Hl. apply visit_paths_present.
    eapply Forall_impl; [exact Hl|]. intros x [-> | ->]; simpl.
    - rewrite EA. set_solver.
    - rewrite EB. set_solver. }
  assert (HB2 : crawl 2 B st1 = Some st2).
  { rewrite (collect_files_leaf 1 B st1 cB) with (nodes := nodesB); rewrite ?EB; try done.
    - by apply Hdone.
    - simpl. set_solver. }
  rewrite (collect_files_leaf 2 A empty_state cA) with (nodes := nodesA);
    rewrite ?EA; try done; [|simpl; set_solver].
  change (State (collected empty_state ++ [(A, cA)]) (out empty_state ++ [ReadOk A]))
    with st1.
  revert HB HtA. generalize (import_targets fs project_root A nodesA) as l.
  induction l as [|x l IH]; intros Hin Hall.
  - by apply elem_of_nil in Hin.
  - apply Forall_cons in Hall as [Hx Hl]. cbn [visit_paths].
    destruct Hx as [-> | ->].
    + case_bool_decide.
      * rewrite collect_files_present by (rewrite EA; simpl; set_solver).
        apply IH; [|done]. apply elem_of_cons in Hin as [?|?]; [congruence|done].
      * apply IH; [|done]. apply elem_of_cons in Hin as [?|?]; [congruence|done].
    + rewrite bool_decide_eq_true_2 by done. rewrite HB2. by apply Hdone.
Qed.

End CrawlFacts.

(** ** Facts about the resolver *)

Lemma first_existing_two fs c1 c2 :
  first_existing fs [c1; c2]
  = if isfile fs c1 then Some (abspath c1)
    else if isfile fs c2 then Some (abspath c2) else None.
Proof.
  unfold first_existing.
  destruct (isfile fs c1) eqn:E1.
  - by rewrite filter_cons_True.
  - rewrite filter_cons_False by (rewrite E1; done).
    destruct (isfile fs c2) eqn:E2.
    + by rewrite filter_cons_True.
    + by rewrite filter_cons_False by (rewrite E2; done).
Qed.

Lemma add_suffix_snoc l x suffix : add_suffix (l ++ [x]) suffix = l ++ [x +:+ suffix].
Proof.
  unfold add_suffix. destruct (l ++ [x]) eqn:E.
  - by destruct l.
  - rewrite <- E. by rewrite removelast_last, last_snoc.
Qed.

Lemma iter_dirname n p : Nat.iter n dirname p = take (length p - n) p.
Proof.
  induction n as [|n IH]; simpl.
  - by rewrite Nat.sub_0_r, firstn_all.
  - rewrite IH. unfold dirname. rewrite removelast_take, take_take, length_take.
    f_equal. lia.
Qed.

Lemma append_eq_self (s t : string) : s +:+ t = s → t = "".
Proof. induction s as [|c s IH]; simpl; [done|]. intros [= H]. auto. Qed.

(** The two shapes [resolve_module] tries, in the order it tries them. *)
Lemma resolve_module_first_existing fs m base :
  resolve_module fs m base
  = first_existing fs [ add_suffix (base ++ split_dot m) ".py";
                        base ++ split_dot m ++ ["__init__.py"] ].
Proof. unfold resolve_module, path_join. by rewrite first_existing_two. Qed.

(** A relative import: the climb, then the two shapes on the candidate. *)
Lemma resolve_import_relative fs module level cur root :
  level ≠ 0 →
  resolve_import fs (ImportFrom module level) cur root
  = let base := Nat.iter (level - 1) dirname (dirname (abspath cur)) in
    let candidate_dir :=
      if truthy module then base ++ split_dot (default "" module) else base in
    option_list (first_existing fs [ add_suffix candidate_dir ".py";
                                     candidate_dir ++ ["__init__.py"] ]).
Proof.
  intros Hl. cbn [resolve_import]. rewrite bool_decide_eq_false_2 by done.
  cbv zeta. rewrite first_existing_two. unfold path_join.
  by repeat case_match.
Qed.

(** ** The claims of the specification *)

(** Settles a decidable statement about concrete data by evaluating its
    decision procedure. *)
Ltac by_evaluation := apply (bool_decide_unpack _); vm_compute; exact I.

(** C1.  The traversal terminates on every disk, import cycles included:
    a run from any entry file returns, no path is a key twice and each key
    was read exactly once; a call on a path that is already a key returns
    the state as it is, which is what cuts a cycle; and when the entry
    file [A] imports [B] and [B] imports [A] (and neither imports anything
    else inside the root), the run returns exactly [A] then [B]. *)
Theorem collect_terminates_on_cycles fs parse root spec :
  (∀ entry, ∃ st,
      collect fs parse root spec entry = Some st ∧
      NoDup (keys (collected st)) ∧
      keys (collected st) = reads (out st)) ∧
  (∀ fuel fp st,
      abspath fp ∈ keys (collected st) →
      collect_files fs parse root spec (S fuel) fp st = Some st) ∧
  (∀ A B cA cB nodesA nodesB,
      clean A → A ≠ B →
      should_ignore A root spec = false →
      should_ignore B root spec = false →
      read_text fs A = Some cA → read_text fs B = Some cB →
      parse cA = Some nodesA → parse cB = Some nodesB →
      B ∈ import_targets fs root A nodesA →
      Forall (λ x, x = A ∨ x = B) (import_targets fs root A nodesA) →
      Forall (λ x, x = A ∨ x = B) (import_targets fs root B nodesB) →
      collect fs parse root spec A
      = Some (State [(A, cA); (B, cB)] [ReadOk A; ReadOk B])).
Proof.
  split; [|split].
  - intros entry. destruct (collect_total fs parse root spec entry) as [st Hst].
    exists st. split; [done|].
    apply collect_files_extends in Hst
      as (added & new_out & Hc & Ho & Hk & Hnd & _).
    simpl in Hc, Ho. rewrite Hc, Ho. by split.
  - intros fuel fp st. apply collect_files_present.
  - intros A B cA cB nodesA nodesB HA Hne HiA HiB HrA HrB HpA HpB HB HtA HtB.
    destruct (collect_total fs parse root spec A) as [st Hst]. rewrite Hst. f_equal.
    eapply collect_files_fuel_irrelevant; [exact Hst|].
    by eapply two_file_cycle.
Qed.

Lemma collect_terminates_on_cycles_witness :
  collect cycle_fs toy_parse ["proj"] None ["proj"; "a.py"]
  = Some (State [ (["proj"; "a.py"], "import b");
                  (["proj"; "b.py"], "x = 1;import a") ]
                [ ReadOk ["proj"; "a.py"]; ReadOk ["proj"; "b.py"] ]).
Proof.
  apply (proj2 (proj2 (collect_terminates_on_cycles cycle_fs toy_parse ["proj"] None)))
    with (nodesA := [Import ["b"]]) (nodesB := [Import ["a"]]).
  - repeat constructor; done.
  - done.
  - vm_compute; reflexivity.
  - vm_compute; reflexivity.
  - vm_compute; reflexivity.
  - vm_compute; reflexivity.
  - vm_compute; reflexivity.
  - vm_compute; reflexivity.
  - by_evaluation.
  - by_evaluation.
  - by_evaluation.
Defined.


(** So the statement that every key of every run lies under the root is
    false of the code. *)
Lemma containment_fails_for_outside_entry :
  ¬ (∀ fs parse root spec entry st,
       collect fs parse root spec entry = Some st →
       ∀ k, k ∈ keys (collected st) →
            root `prefix_of` k ∧ should_ignore k root spec = false).
Proof.
  intros H.
  destruct (H outside_fs toy_parse ["proj"] None ["other"; "a.py"]
              (State [(["other"; "a.py"], "x = 1")] [ReadOk ["other"; "a.py"]])
              eq_refl ["other"; "a.py"]) as [[k Hk] _].
  - simpl. set_solver.
  - discriminate Hk.
Qed.

(** What the code does keep: every key other than an entry file outside
    the root.  When the entry file lies under the root, every key of the
    dictionary a run returns has the components of the root as its leading
    components, and was not ignored when it was added.  The comparison is
    by whole components: a key is never in a sibling directory whose name
    only starts with the name of the root. *)
Lemma collected_within_root fs parse root spec entry st :
  root `prefix_of` abspath entry →
  collect fs parse root spec entry = Some st →
  ∀ k, k ∈ keys (collected st) →
       root `prefix_of` k ∧
       should_ignore k root spec = false ∧
       (∀ parent name more rest,
           root = parent ++ [name] → more ≠ "" →
           k ≠ parent ++ [name +:+ more] ++ rest).
Proof.
  intros Hentry Hrun k Hk.
  destruct (collect_files_safe fs parse root spec _ _ _ _ Hentry Hrun k Hk)
    as [Hin|[Hpre Hign]].
  { by apply elem_of_nil in Hin. }
  split; [done|]. split; [done|].
  intros parent name more rest -> Hmore ->.
  destruct Hpre as [tail Htail]. rewrite <- !app_assoc in Htail.
  apply app_inv_head in Htail. injection Htail as Hname _.
  by apply append_eq_self in Hname.
Qed.

(** C3.  An absolute import is resolved name by name.  For each dotted
    name the directory of the importing file is tried first and the root
    only when the directory gives nothing, so a name that resolves in the
    directory never yields the root's file; each name contributes at most
    one path, in the order of the names. *)
Theorem absolute_import_precedence fs root cur :
  (∀ m d, resolve_module fs m (dirname (abspath cur)) = Some d →
          resolve_absolute fs m cur root = Some d) ∧
  (∀ m, resolve_module fs m (dirname (abspath cur)) = None →
        resolve_absolute fs m cur root = resolve_module fs m root) ∧
  (∀ names, resolve_import fs (Import names) cur root
            = omap (λ m, resolve_absolute fs m cur root) names) ∧
  (∀ m, m ≠ "" →
        resolve_import fs (ImportFrom (Some m) 0) cur root
        = option_list (resolve_absolute fs m cur root)) ∧
  (∀ names, length (resolve_import fs (Import names) cur root) ≤ length names) ∧
  (∀ module, length (resolve_import fs (ImportFrom module 0) cur root) ≤ 1).
Proof.
  assert (Himport : ∀ names, resolve_import fs (Import names) cur root
                             = omap (λ m, resolve_absolute fs m cur root) names).
  { intros names. cbn [resolve_import]. by rewrite import_loop_omap. }
  repeat split.
  - intros m d Hd. unfold resolve_absolute. by rewrite Hd.
  - intros m Hd. unfold resolve_absolute. by rewrite Hd.
  - done.
  - intros m Hm. cbn [resolve_import truthy].
    rewrite !bool_decide_eq_true_2 by done.
    change (default "" (Some m)) with m.
    destruct (resolve_absolute fs m cur root); reflexivity.
  - intros names. rewrite Himport. induction names as [|m names IH]; [done|].
    cbn. destruct (resolve_absolute fs m cur root); simpl; lia.
  - intros module. cbn. repeat case_match; simpl; lia.
Qed.

Lemma absolute_import_precedence_witness :
  resolve_module precedence_fs "util" ["proj"] = Some ["proj"; "util.py"] ∧
  resolve_absolute precedence_fs "util" ["proj"; "pkg"; "a.py"] ["proj"]
  = Some ["proj"; "pkg"; "util.py"].
Proof.
  split; [vm_compute; reflexivity|].
  apply (proj1 (absolute_import_precedence precedence_fs ["proj"] ["proj"; "pkg"; "a.py"])).
  vm_compute; reflexivity.
Defined.

(** C4.  Every relative import of level [L >= 1], with a trailing name
    or without one, takes the directory of the importing file and goes to
    the parent [L - 1] times (the parent of the top directory being the
    top directory): that is the base directory.  The candidate is the base
    joined with the trailing name, or the base itself when there is none,
    and the two shapes are tried on it.  So from [pkg/a.py] level 1 with
    name [b] gives [pkg/b.py] or else [pkg/b/__init__.py], and level 2
    with name [c] gives [c.py] or else [c/__init__.py] in the parent of
    [pkg]. *)
Theorem relative_import_climbs fs root cur module level :
  level ≠ 0 →
  let current_dir := dirname (abspath cur) in
  let base := Nat.iter (level - 1) dirname current_dir in
  base = take (length current_dir - (level - 1)) current_dir ∧
  (level - 1 ≤ length current_dir →
   ∃ climbed, current_dir = base ++ climbed ∧ length climbed = level - 1) ∧
  resolve_import fs (ImportFrom module level) cur root
  = (let candidate_dir :=
       if truthy module then base ++ split_dot (default "" module) else base in
     option_list (first_existing fs [ add_suffix candidate_dir ".py";
                                      candidate_dir ++ ["__init__.py"] ])) ∧
  (∀ m, module = Some m → m ≠ "" →
     resolve_import fs (ImportFrom module level) cur root
     = option_list (first_existing fs [ add_suffix (base ++ split_dot m) ".py";
                                        base ++ split_dot m ++ ["__init__.py"] ])) ∧
  (∀ d pkg a m, abspath cur = d ++ [pkg; a] → module = Some m → m ≠ "" →
     split_dot m = [m] →
     (level = 1 →
      resolve_import fs (ImportFrom module level) cur root
      = option_list (first_existing fs [ d ++ [pkg; m +:+ ".py"];
                                         d ++ [pkg; m; "__init__.py"] ])) ∧
     (level = 2 →
      resolve_import fs (ImportFrom module level) cur root
      = option_list (first_existing fs [ d ++ [m +:+ ".py"];
                                         d ++ [m; "__init__.py"] ]))).
Proof.
  intros Hl current_dir base.
  assert (Hbase : base = take (length current_dir - (level - 1)) current_dir)
    by apply iter_dirname.
  assert (Hnamed : ∀ m, module = Some m → m ≠ "" →
            resolve_import fs (ImportFrom module level) cur root
            = option_list (first_existing fs [ add_suffix (base ++ split_dot m) ".py";
                                               base ++ split_dot m ++ ["__init__.py"] ])).
  { intros m -> Hm. rewrite resolve_import_relative by done. cbn.
    rewrite bool_decide_eq_true_2 by done. by rewrite <- app_assoc. }
  split; [done|]. split; [|split; [by apply resolve_import_relative|split; [done|]]].
  - intros Hdepth. exists (drop (length current_dir - (level - 1)) current_dir). split.
    + by rewrite Hbase, take_drop.
    + rewrite length_drop. lia.
  - intros d pkg a m Hcur -> Hm Hsplit.
    assert (current_dir = d ++ [pkg]) as Hdir.
    { unfold current_dir, dirname. rewrite Hcur.
      change (d ++ [pkg; a]) with (d ++ [pkg] ++ [a]).
      by rewrite app_assoc, removelast_last. }
    split; intros ->; rewrite (Hnamed m eq_refl Hm); unfold base;
      rewrite Hsplit, Hdir; simpl.
    + by rewrite add_suffix_snoc, <- !app_assoc.
    + unfold dirname. by rewrite removelast_last, add_suffix_snoc.
Qed.

Lemma relative_import_climbs_witness :
  resolve_import relative_fs (ImportFrom (Some "b") 1) ["proj"; "pkg"; "a.py"] ["proj"]
  = [["proj"; "pkg"; "b.py"]] ∧
  resolve_import relative_fs (ImportFrom (Some "c") 2) ["proj"; "pkg"; "a.py"] ["proj"]
  = [["proj"; "c.py"]] ∧
  resolve_import relative_fs (ImportFrom None 2) ["proj"; "pkg"; "a.py"] ["proj"]
  = [] ∧
  resolve_import relative_fs (ImportFrom None 1) ["proj"; "pkg"; "a.py"] ["proj"]
  = [["proj"; "pkg"; "__init__.py"]].
Proof.
  split; [|split; [|split]].
  - etransitivity.
    + refine (proj1 (proj2 (proj2 (proj2 (proj2
                (relative_import_climbs relative_fs ["proj"] ["proj"; "pkg"; "a.py"]
                   (Some "b") 1 _)))) ["proj"] "pkg" "a.py" "b" _ _ _ _) _);
        (lia || done).
    + vm_compute; reflexivity.
  - etransitivity.
    + refine (proj2 (proj2 (proj2 (proj2 (proj2
                (relative_import_climbs relative_fs ["proj"] ["proj"; "pkg"; "a.py"]
                   (Some "c") 2 _)))) ["proj"] "pkg" "a.py" "c" _ _ _ _) _);
        (lia || done).
    + vm_compute; reflexivity.
  - etransitivity.
    + refine (proj1 (proj2 (proj2
                (relative_import_climbs relative_fs ["proj"] ["proj"; "pkg"; "a.py"]
                   None 2 _)))). lia.
    + vm_compute; reflexivity.
  - etransitivity.
    + refine (proj1 (proj2 (proj2
                (relative_import_climbs relative_fs ["proj"] ["proj"; "pkg"; "a.py"]
                   None 1 _)))). lia.
    + vm_compute; reflexivity.
Defined.

(** C5, as the specification states it, fails: with no trailing name the
    resolver still tries the single-file shape first, on the path of the
    base directory itself.  In [shadow_fs] the file [proj/pkg.py] is
    returned although the package [proj/pkg] has its entry file. *)
Lemma bare_relative_import_not_package_only :
  ¬ (∀ fs root cur level,
       level ≠ 0 →
       resolve_import fs (ImportFrom None level) cur root
       = let base := Nat.iter (level - 1) dirname (dirname (abspath cur)) in
         if isfile fs (base ++ ["__init__.py"])
         then [abspath (base ++ ["__init__.py"])]
         else []).
Proof.
  intros H.
  specialize (H shadow_fs ["proj"] ["proj"; "pkg"; "a.py"] 1 ltac:(lia)).
  vm_compute in H. discriminate H.
Qed.

(** C5, amended.  For a relative import with no trailing name, when no
    regular file is found at the path of the candidate base directory with
    the source extension appended, the resolver returns the entry file of
    that directory if it is a regular file and nothing otherwise. *)
Theorem bare_relative_import_package fs root cur module level :
  level ≠ 0 → truthy module = false →
  let base := Nat.iter (level - 1) dirname (dirname (abspath cur)) in
  isfile fs (add_suffix base ".py") = false →
  resolve_import fs (ImportFrom module level) cur root
  = if isfile fs (base ++ ["__init__.py"])
    then [abspath (base ++ ["__init__.py"])]
    else [].
Proof.
  intros Hl Hm base Hfile. rewrite resolve_import_relative by done.
  cbv zeta. rewrite Hm, first_existing_two. fold base. rewrite Hfile.
  by destruct (isfile fs (base ++ ["__init__.py"])).
Qed.

Lemma bare_relative_import_package_witness :
  resolve_import relative_fs (ImportFrom None 1) ["proj"; "pkg"; "a.py"] ["proj"]
  = [["proj"; "pkg"; "__init__.py"]].
Proof.
  etransitivity.
  - apply (bare_relative_import_package relative_fs ["proj"] ["proj"; "pkg"; "a.py"] None 1).
    + lia.
    + reflexivity.
    + vm_compute; reflexivity.
  - vm_compute; reflexivity.
Defined.

Lemma split_on_snoc sep s : ∃ segs seg, split_on sep s = segs ++ [seg].
Proof.
  induction s as [|c s (segs & seg & IH)]; simpl.
  - by exists [], "".
  - case_bool_decide.
    + exists ("" :: segs), seg. by rewrite IH.
    + rewrite IH. destruct segs as [|h t]; simpl.
      * by exists [], (String c seg).
      * by exists (String c h :: t), seg.
Qed.

(** C6.  [resolve_module] tries two candidates and no other: the joined
    components with the extension on the last one, then the joined
    components followed by the package entry file.  It returns the first of
    the two that is a regular file, made absolute, and nothing when
    neither is. *)
Theorem resolve_module_two_shapes fs m base :
  let single := add_suffix (base ++ split_dot m) ".py" in
  let package := base ++ split_dot m ++ ["__init__.py"] in
  (∃ segs seg, split_dot m = segs ++ [seg] ∧
               single = base ++ segs ++ [seg +:+ ".py"] ∧
               package = base ++ segs ++ [seg; "__init__.py"]) ∧
  resolve_module fs m base = first_existing fs [single; package] ∧
  (isfile fs single = true → resolve_module fs m base = Some (abspath single)) ∧
  (isfile fs single = false → isfile fs package = true →
   resolve_module fs m base = Some (abspath package)) ∧
  (isfile fs single = false → isfile fs package = false →
   resolve_module fs m base = None) ∧
  (∀ r, resolve_module fs m base = Some r →
        (r = abspath single ∧ isfile fs single = true) ∨
        (r = abspath package ∧ isfile fs single = false ∧ isfile fs package = true)).
Proof.
  intros single package.
  assert (Hres : resolve_module fs m base
            = if isfile fs single then Some (abspath single)
              else if isfile fs package then Some (abspath package) else None).
  { by rewrite resolve_module_first_existing, first_existing_two. }
  split; [|split; [|repeat split]].
  - destruct (split_on_snoc "."%char m) as (segs & seg & Hsplit).
    exists segs, seg. unfold single, package, split_dot. rewrite Hsplit.
    split; [done|]. split.
    + by rewrite app_assoc, add_suffix_snoc, <- app_assoc.
    + by rewrite <- app_assoc.
  - apply resolve_module_first_existing.
  - intros H1. by rewrite Hres, H1.
  - intros H1 H2. by rewrite Hres, H1, H2.
  - intros H1 H2. by rewrite Hres, H1, H2.
  - intros r. rewrite Hres.
    destruct (isfile fs single); [intros [= <-]; by left|].
    destruct (isfile fs package); [intros [= <-]; by right|done].
Qed.

Lemma resolve_module_two_shapes_witness :
  resolve_module precedence_fs "pkg.util" ["proj"] = Some ["proj"; "pkg"; "util.py"] ∧
  resolve_module relative_fs "pkg" ["proj"] = Some ["proj"; "pkg"; "__init__.py"] ∧
  resolve_module relative_fs "pkg.zzz" ["proj"] = None.
Proof.
  split; [|split].
  - etransitivity.
    + apply (proj1 (proj2 (proj2 (resolve_module_two_shapes precedence_fs "pkg.util" ["proj"])))).
      vm_compute; reflexivity.
    + vm_compute; reflexivity.
  - etransitivity.
    + apply (proj1 (proj2 (proj2 (proj2
               (resolve_module_two_shapes relative_fs "pkg" ["proj"]))))).
      * vm_compute; reflexivity.
      * vm_compute; reflexivity.
    + vm_compute; reflexivity.
  - apply (proj1 (proj2 (proj2 (proj2 (proj2
             (resolve_module_two_shapes relative_fs "pkg.zzz" ["proj"])))))).
    + vm_compute; reflexivity.
    + vm_compute; reflexivity.
Defined.

(** C7.  A visited file that is read but does not parse is recorded with
    the content that was read; the call reports the failure and returns
    without following any import, so nothing else is added; and the loop
    that made the call goes on with the paths that remain. *)
Theorem parse_failure_is_local fs parse root spec fuel fp st content :
  abspath fp ∉ keys (collected st) →
  should_ignore (abspath fp) root spec = false →
  read_text fs (abspath fp) = Some content →
  parse content = None →
  let st' := State (collected st ++ [(abspath fp, content)])
                   (out st ++ [ReadOk (abspath fp); ErrorParsing (abspath fp)]) in
  collect_files fs parse root spec (S fuel) fp st = Some st' ∧
  (∀ rest, commonpath fp root = root →
     visit_paths root (collect_files fs parse root spec (S fuel)) (fp :: rest) st
     = visit_paths root (collect_files fs parse root spec (S fuel)) rest st').
Proof.
  intros Hp Hign Hread Hparse st'.
  assert (Hcall : collect_files fs parse root spec (S fuel) fp st = Some st').
  { rewrite collect_files_unfold. cbv zeta.
    rewrite (proj2 (dict_mem_false _ _) Hp), Hign, Hread, Hparse.
    rewrite after_record_fresh by done. unfold after_parse_error, st'. simpl.
    by rewrite <- app_assoc. }
  split; [done|]. intros rest Hin. cbn [visit_paths].
  by rewrite bool_decide_eq_true_2, Hcall by done.
Qed.

Lemma parse_failure_is_local_witness :
  collect_files faulty_fs toy_parse ["proj"] None 1 ["proj"; "broken.py"]
    (State [(["proj"; "a.py"], "import broken;import locked;import good")]
           [ReadOk ["proj"; "a.py"]])
  = Some (State [ (["proj"; "a.py"], "import broken;import locked;import good");
                  (["proj"; "broken.py"], "(") ]
                [ ReadOk ["proj"; "a.py"]; ReadOk ["proj"; "broken.py"];
                  ErrorParsing ["proj"; "broken.py"] ]).
Proof.
  apply (parse_failure_is_local faulty_fs toy_parse ["proj"] None 0 ["proj"; "broken.py"]
           (State [(["proj"; "a.py"], "import broken;import locked;import good")]
                  [ReadOk ["proj"; "a.py"]]) "(").
  - by_evaluation.
  - vm_compute; reflexivity.
  - vm_compute; reflexivity.
  - vm_compute; reflexivity.
Defined.

(** C8.  A visited file whose read fails is not recorded: the call reports
    the failure and returns the dictionary as it was, and the loop that
    made the call goes on with the paths that remain. *)
Theorem read_failure_is_local fs parse root spec fuel fp st :
  abspath fp ∉ keys (collected st) →
  should_ignore (abspath fp) root spec = false →
  read_text fs (abspath fp) = None →
  let st' := State (collected st) (out st ++ [ErrorReading (abspath fp)]) in
  collect_files fs parse root spec (S fuel) fp st = Some st' ∧
  (abspath fp ∉ keys (collected st')) ∧
  (∀ rest, commonpath fp root = root →
     visit_paths root (collect_files fs parse root spec (S fuel)) (fp :: rest) st
     = visit_paths root (collect_files fs parse root spec (S fuel)) rest st').
Proof.
  intros Hp Hign Hread st'.
  assert (Hcall : collect_files fs parse root spec (S fuel) fp st = Some st').
  { rewrite collect_files_unfold. cbv zeta.
    by rewrite (proj2 (dict_mem_false _ _) Hp), Hign, Hread. }
  split; [done|]. split; [done|]. intros rest Hin. cbn [visit_paths].
  by rewrite bool_decide_eq_true_2, Hcall by done.
Qed.

Lemma read_failure_is_local_witness :
  collect_files faulty_fs toy_parse ["proj"] None 1 ["proj"; "locked.py"] empty_state
  = Some (State [] [ErrorReading ["proj"; "locked.py"]]).
Proof.
  apply (read_failure_is_local faulty_fs toy_parse ["proj"] None 0
           ["proj"; "locked.py"] empty_state).
  - by_evaluation.
  - vm_compute; reflexivity.
  - vm_compute; reflexivity.
Defined.

(** C10.  A call with a dictionary that already has entries keeps every
    one of them, unchanged and in place: the dictionary it returns is the
    old one followed by the new entries, whose keys are all new.  When the
    path of the call is already a key the state comes back as it is: no
    test, no read, no write.  A recursion bound above the number of files
    the disk still holds for the walk is enough for the call to return. *)
Theorem collect_files_preserves_accumulator fs parse root spec fuel fp st :
  (size (pending fs (collected st)) < fuel →
   is_Some (collect_files fs parse root spec fuel fp st)) ∧
  (∀ st', collect_files fs parse root spec fuel fp st = Some st' →
     (∃ added, collected st' = collected st ++ added ∧
               ∀ k, k ∈ keys added → k ∉ keys (collected st)) ∧
     (∀ i kv, collected st !! i = Some kv → collected st' !! i = Some kv) ∧
     keys (collected st) ⊆ keys (collected st') ∧
     (abspath fp ∈ keys (collected st) → st' = st)).
Proof.
  split; [apply collect_files_total|]. intros st' Hrun.
  pose proof (collect_files_extends _ _ _ _ _ _ _ _ Hrun)
    as (added & new_out & Hc & _ & _ & _ & Hfresh & _).
  split; [by exists added|]. split; [|split].
  - intros i kv Hi. rewrite Hc. by apply lookup_app_l_Some.
  - rewrite Hc, keys_app. set_solver.
  - intros Hin. destruct fuel as [|fuel]; [done|].
    rewrite collect_files_present in Hrun by done. congruence.
Qed.

Lemma collect_files_preserves_accumulator_witness :
  State [ (["elsewhere"; "kept.py"], "old content");
          (["proj"; "a.py"], "import b");
          (["proj"; "b.py"], "x = 1;import a") ]
        [ ReadOk ["proj"; "a.py"]; ReadOk ["proj"; "b.py"] ]
  = State [ (["elsewhere"; "kept.py"], "old content");
            (["proj"; "a.py"], "import b");
            (["proj"; "b.py"], "x = 1;import a") ]
          [ ReadOk ["proj"; "a.py"]; ReadOk ["proj"; "b.py"] ] ∧
  [ (["elsewhere"; "kept.py"], "old content");
    (["proj"; "a.py"], "import b");
    (["proj"; "b.py"], "x = 1;import a") ] !! 0
  = Some (["elsewhere"; "kept.py"], "old content").
Proof.
  split.
  - refine (proj2 (proj2 (proj2 (proj2
              (collect_files_preserves_accumulator cycle_fs toy_parse ["proj"] None 1
                 ["proj"; "a.py"]
                 (State [ (["elsewhere"; "kept.py"], "old content");
                          (["proj"; "a.py"], "import b");
                          (["proj"; "b.py"], "x = 1;import a") ]
                        [ ReadOk ["proj"; "a.py"]; ReadOk ["proj"; "b.py"] ]))
              _ _))) _).
    + vm_compute; reflexivity.
    + by_evaluation.
  - refine (proj1 (proj2 (proj2
              (collect_files_preserves_accumulator cycle_fs toy_parse ["proj"] None 4
                 ["proj"; "a.py"]
                 (State [(["elsewhere"; "kept.py"], "old content")] []))
              (State [ (["elsewhere"; "kept.py"], "old content");
                       (["proj"; "a.py"], "import b");
                       (["proj"; "b.py"], "x = 1;import a") ]
                     [ ReadOk ["proj"; "a.py"]; ReadOk ["proj"; "b.py"] ]) _)) 0 _ _).
    + vm_compute; reflexivity.
    + reflexivity.
Defined.

(** ** Further properties of the program *)

(** *** [find_git_root] *)

Lemma removelast_fixed {A} (l : list A) : removelast l = l → l = [].
Proof.
  intros H. destruct l as [|a l]; [done|].
  apply (f_equal length) in H. rewrite removelast_take, length_take in H.
  simpl in H. lia.
Qed.

Lemma prefix_of_removelast (q p : path) :
  q `prefix_of` p → q = p ∨ q `prefix_of` removelast p.
Proof.
  intros [k ->]. destruct (decide (k = [])) as [->|Hk].
  - left. by rewrite app_nil_r.
  - right. destruct (exists_last Hk) as (k' & x & ->).
    rewrite app_assoc, removelast_last. by exists k'.
Qed.

Lemma removelast_prefix (p : path) : removelast p `prefix_of` p.
Proof. rewrite removelast_take. apply prefix_take. Qed.

Lemma find_git_root_loop_spec fs fuel :
  ∀ current_dir, length current_dir ≤ fuel →
    ∃ r, find_git_root_loop fs fuel current_dir = Some r ∧ git_root_of fs current_dir r.
Proof.
  induction fuel as [|fuel IH]; intros cur Hlen.
  - destruct cur; [|simpl in Hlen; lia]. cbn.
    destruct (isdir fs [".git"]) eqn:E.
    + exists (Some []). split; [done|]. split; [done|]. split; [done|].
      intros q Hq _. by apply prefix_nil_inv in Hq as ->.
    + exists None. split; [done|]. intros q Hq. by apply prefix_nil_inv in Hq as ->.
  - cbn [find_git_root_loop]. unfold path_join.
    destruct (isdir fs (cur ++ [".git"])) eqn:E.
    { exists (Some cur). split; [done|]. split; [done|]. by split. }
    cbv zeta. unfold dirname. case_bool_decide as Hfix.
    { apply removelast_fixed in Hfix as ->. exists None. split; [done|].
      intros q Hq. by apply prefix_nil_inv in Hq as ->. }
    destruct (IH (removelast cur)) as (r & Hr & Hspec).
    { rewrite removelast_take, length_take. destruct cur; simpl in *; [done|lia]. }
    exists r. split; [done|]. destruct r as [g|]; simpl in *.
    + destruct Hspec as (Hpre & Hgit & Hnear). split; [|split; [done|]].
      * etrans; [exact Hpre|apply removelast_prefix].
      * intros q Hq Hqgit. apply prefix_of_removelast in Hq as [->|Hq]; [congruence|].
        by apply Hnear.
    + intros q Hq. apply prefix_of_removelast in Hq as [->|Hq]; [done|by apply Hspec].
Qed.

(** [find_git_root] returns, and what it returns is the nearest root. *)
Lemma find_git_root_spec fs start :
  ∃ r, find_git_root fs start = Some r ∧ git_root_of fs (abspath start) r.
Proof.
  unfold find_git_root. cbv zeta.
  apply find_git_root_loop_spec. done.
Qed.

(** X1.  When [find_git_root] returns a directory, it is the starting
    directory or one of its ancestors, it holds a [.git] directory, and it
    is the nearest such: every other ancestor with a [.git] directory lies
    above it. *)
Theorem find_git_root_nearest fs start g :
  find_git_root fs start = Some (Some g) →
  g `prefix_of` abspath start ∧
  isdir fs (g ++ [".git"]) = true ∧
  (∀ q, q `prefix_of` abspath start → isdir fs (q ++ [".git"]) = true →
        q `prefix_of` g).
Proof.
  intros H. destruct (find_git_root_spec fs start) as (r & Hr & Hspec).
  rewrite Hr in H. by injection H as ->.
Qed.

Lemma find_git_root_nearest_witness :
  ["home"; "repo"] `prefix_of` ["home"; "repo"; "vendor"] ∧
  isdir repo_fs ["home"; "repo"; ".git"] = true.
Proof.
  destruct (find_git_root_nearest repo_fs ["home"; "repo"; "vendor"] ["home"; "repo"])
    as (H1 & H2 & _).
  - vm_compute; reflexivity.
  - by split.
Defined.

(** X2.  [find_git_root] always returns, and it returns nothing exactly
    when neither the starting directory nor any of its ancestors holds a
    [.git] directory; a [.git] that is a file does not count. *)
Theorem find_git_root_none fs start :
  is_Some (find_git_root fs start) ∧
  (find_git_root fs start = Some None ↔
   ∀ q, q `prefix_of` abspath start → isdir fs (q ++ [".git"]) = false) ∧
  (∀ q, fs !! normpath (q ++ [".git"]) ≠ Some Directory →
        isdir fs (q ++ [".git"]) = false).
Proof.
  destruct (find_git_root_spec fs start) as (r & Hr & Hspec).
  rewrite Hr. split; [done|]. split.
  - split.
    + intros [= ->]. exact Hspec.
    + intros Hnone. destruct r as [g|]; [|done].
      destruct Hspec as (Hpre & Hgit & _). rewrite (Hnone g Hpre) in Hgit. done.
  - intros q Hq. unfold isdir. by repeat case_match.
Qed.

Lemma find_git_root_none_witness : isdir repo_fs ([] ++ [".git"]) = false.
Proof.
  apply (proj1 (proj1 (proj2 (find_git_root_none repo_fs ["tmp"; "work"])))).
  - vm_compute; reflexivity.
  - apply prefix_nil.
Defined.

(** *** [should_ignore] *)

Lemma name_rules_spec p root spec :
  (∃ c, c ∈ normpath p ∧ (c = "__pycache__" ∨ c ∈ ignore_set)) →
  should_ignore p root spec = true.
Proof.
  intros (c & Hc & Hname). unfold should_ignore. cbv zeta.
  case_bool_decide as Hcache; [done|].
  destruct Hname as [->|Hin].
  { exfalso. apply Hcache. by apply elem_of_cons; right. }
  assert (existsb (λ part, bool_decide (part ∈ ignore_set)) ("" :: normpath p) = true)
    as ->; [|done].
  apply existsb_exists. exists c. split.
  - apply list_elem_of_In. by apply elem_of_cons; right.
  - by apply bool_decide_eq_true.
Qed.

Lemma name_rules_none p root :
  should_ignore p root None = true →
  ∃ c, c ∈ normpath p ∧ (c = "__pycache__" ∨ c ∈ ignore_set).
Proof.
  unfold should_ignore. cbv zeta. case_bool_decide as Hcache.
  - intros _. exists "__pycache__". split; [|by left].
    apply elem_of_cons in Hcache as [?|?]; [done|done].
  - destruct (existsb _ _) eqn:Hset; [|done]. intros _.
    apply existsb_exists in Hset as (c & Hc & Hin).
    apply bool_decide_eq_true in Hin. exists c. split; [|by right].
    apply list_elem_of_In, elem_of_cons in Hc as [->|?]; [|done].
    exfalso. revert Hin. by_evaluation.
Qed.

Lemma clean_app p q : clean (p ++ q) ↔ clean p ∧ clean q.
Proof. apply Forall_app. Qed.

(** X3.  The name rules of [should_ignore] do not depend on the root or on
    the ignore spec, and they are inherited: a path with a component
    [__pycache__] or a component in the fixed marker set is ignored, and so
    is everything below it.  Without a spec these are the only paths that
    are ignored, so a spec can add exclusions and never removes one. *)
Theorem should_ignore_by_name :
  (∀ p q root spec,
      clean (p ++ q) →
      (∃ c, c ∈ p ∧ (c = "__pycache__" ∨ c ∈ ignore_set)) →
      should_ignore (p ++ q) root spec = true) ∧
  (∀ p root,
      should_ignore p root None = true ↔
      ∃ c, c ∈ normpath p ∧ (c = "__pycache__" ∨ c ∈ ignore_set)) ∧
  (∀ p root root' spec,
      should_ignore p root None = true → should_ignore p root' spec = true).
Proof.
  split; [|split].
  - intros p q root spec Hcl (c & Hc & Hname). apply name_rules_spec.
    exists c. split; [|done].
    change (normpath (p ++ q)) with (abspath (p ++ q)).
    rewrite abspath_of_clean by done. apply elem_of_app. by left.
  - intros p root. split; [apply name_rules_none|apply name_rules_spec].
  - intros p root root' spec H. by apply name_rules_spec, (name_rules_none p root).
Qed.

Lemma should_ignore_by_name_witness :
  should_ignore (["home"; "repo"; "venv"] ++ ["lib"; "site.py"]) ["home"; "repo"]
    (Some (λ _, false)) = true.
Proof.
  apply (proj1 should_ignore_by_name).
  - repeat constructor; done.
  - exists "venv". split; [by_evaluation|right; by_evaluation].
Defined.

Lemma filter_nonempty_clean p : clean p → filter (λ x : string, x ≠ "") p = p.
Proof.
  induction 1 as [|c r (H1 & _) _ IH]; [done|].
  by rewrite filter_cons_True, IH.
Qed.

Lemma common_prefix_app s k : common_prefix s (s ++ k) = s.
Proof.
  induction s as [|c s IH]; simpl; [by destruct k|].
  rewrite bool_decide_eq_true_2 by done. by rewrite IH.
Qed.

(** For a path under the root, [os.path.relpath] gives the components
    below the root, and ["."] for the root itself. *)
Lemma relpath_under root rel :
  clean root → clean rel →
  relpath (root ++ rel) root = match rel with [] => ["."] | _ => rel end.
Proof.
  intros Hroot Hrel. unfold relpath.
  rewrite !abspath_of_clean by (done || by apply clean_app).
  rewrite !filter_nonempty_clean by (done || by apply clean_app).
  cbv zeta. rewrite common_prefix_app, Nat.sub_diag, drop_app_length. simpl.
  by destruct rel.
Qed.

(** X4.  For a normalised path under a normalised root that no name rule
    excludes, [should_ignore] is the answer of the spec on the components
    of the path below the root (on ["."] for the root itself): the patterns
    of the ignore file are matched relative to the project root. *)
Theorem should_ignore_relative_to_root root rel match_file :
  clean root → clean rel →
  Forall (λ c, c ≠ "__pycache__" ∧ c ∉ ignore_set) (root ++ rel) →
  should_ignore (root ++ rel) root (Some match_file)
  = match_file (match rel with [] => ["."] | _ => rel end).
Proof.
  intros Hroot Hrel Hnames.
  destruct (should_ignore (root ++ rel) root None) eqn:Hnone.
  { apply name_rules_none in Hnone as (c & Hc & Hname).
    change (normpath (root ++ rel)) with (abspath (root ++ rel)) in Hc.
    rewrite abspath_of_clean in Hc by by apply clean_app.
    destruct (proj1 (Forall_forall _ _) Hnames c Hc) as [H1 H2]. by destruct Hname. }
  revert Hnone. unfold should_ignore. cbv zeta.
  case_bool_decide; [done|]. destruct (existsb _ _); [done|]. intros _.
  rewrite relpath_under by done. by destruct (match_file _).
Qed.

Lemma should_ignore_relative_to_root_witness :
  should_ignore (["home"; "repo"] ++ ["build"; "gen.py"]) ["home"; "repo"]
    (Some (λ rel, bool_decide (rel = ["build"; "gen.py"]))) = true.
Proof.
  etransitivity.
  - apply (should_ignore_relative_to_root ["home"; "repo"] ["build"; "gen.py"]).
    + repeat constructor; done.
    + repeat constructor; done.
    + by_evaluation.
  - reflexivity.
Defined.

(** *** The resolver *)

Lemma isfile_abspath fs p : isfile fs (abspath p) = isfile fs p.
Proof.
  unfold isfile. change (normpath (abspath p)) with (abspath (abspath p)).
  by rewrite abspath_idem.
Qed.

Lemma isfile_inode fs r :
  clean r → isfile fs r = true →
  (∃ content, fs !! r = Some (RegularFile content)) ∨ fs !! r = Some UnreadableFile.
Proof.
  intros Hcl. unfold isfile. change (normpath r) with (abspath r).
  rewrite abspath_of_clean by done.
  destruct (fs !! r) as [[content| |]|]; try done; eauto.
Qed.

Lemma first_existing_regular fs candidates r :
  first_existing fs candidates = Some r →
  clean r ∧ isfile fs r = true ∧ ∃ c, c ∈ candidates ∧ r = abspath c.
Proof.
  unfold first_existing. intros H.
  destruct (head _) as [c|] eqn:Hhead; [|done]. injection H as <-.
  apply head_Some_elem_of, list_elem_of_filter in Hhead as [Hfile Hin].
  split; [apply abspath_clean|]. split; [by rewrite isfile_abspath|eauto].
Qed.

Lemma resolve_import_first_existing fs node cur root r :
  r ∈ resolve_import fs node cur root →
  ∃ candidates, first_existing fs candidates = Some r.
Proof.
  destruct node as [names|module level].
  - cbn [resolve_import]. rewrite import_loop_omap. simpl.
    intros (m & _ & Hm)%list_elem_of_omap. unfold resolve_absolute in Hm.
    rewrite !resolve_module_first_existing in Hm.
    destruct (first_existing fs _) eqn:E in Hm; [injection Hm as ->|]; eauto.
  - destruct (decide (level = 0)) as [->|Hl].
    + cbn. destruct (truthy module); [|by intros ?%elem_of_nil].
      unfold resolve_absolute. rewrite !resolve_module_first_existing.
      destruct (first_existing fs _) eqn:E1.
      { intros ->%list_elem_of_singleton. eauto. }
      destruct (first_existing fs _) eqn:E2 in |- *.
      { intros ->%list_elem_of_singleton. eauto. }
      by intros ?%elem_of_nil.
    + rewrite resolve_import_relative by done. cbv zeta.
      destruct (first_existing fs _) eqn:E; simpl.
      { intros ->%list_elem_of_singleton. eauto. }
      by intros ?%elem_of_nil.
Qed.

(** X5.  Whatever [resolve_module] and [resolve_import] return is a
    normalised path at which the disk holds a regular file: never a
    directory, never a path that does not exist. *)
Theorem resolved_paths_are_regular_files fs :
  (∀ m base r, resolve_module fs m base = Some r →
     clean r ∧
     ((∃ content, fs !! r = Some (RegularFile content)) ∨ fs !! r = Some UnreadableFile)) ∧
  (∀ node cur root r, r ∈ resolve_import fs node cur root →
     clean r ∧
     ((∃ content, fs !! r = Some (RegularFile content)) ∨ fs !! r = Some UnreadableFile)).
Proof.
  split.
  - intros m base r. rewrite resolve_module_first_existing.
    intros (Hcl & Hfile & _)%first_existing_regular. eauto using isfile_inode.
  - intros node cur root r (cands & (Hcl & Hfile & _)%first_existing_regular)
      %resolve_import_first_existing.
    eauto using isfile_inode.
Qed.

Lemma resolved_paths_are_regular_files_witness :
  clean ["home"; "repo"; "app"; "__init__.py"] ∧
  ((∃ content, repo_fs !! ["home"; "repo"; "app"; "__init__.py"]
               = Some (RegularFile content)) ∨
   repo_fs !! ["home"; "repo"; "app"; "__init__.py"] = Some UnreadableFile).
Proof.
  apply (proj1 (resolved_paths_are_regular_files repo_fs) "app" ["home"; "repo"]).
  vm_compute; reflexivity.
Defined.

Lemma split_on_no_sep sep s :
  Forall (λ seg, contains_char sep seg = false) (split_on sep s).
Proof.
  induction s as [|c s IH]; simpl.
  - by repeat constructor.
  - case_bool_decide as Hc.
    + by constructor.
    + destruct (split_on sep s) as [|h t]; simpl.
      * repeat constructor. simpl. by rewrite bool_decide_eq_false_2.
      * apply Forall_cons in IH as [Hh Ht]. constructor; [|done].
        simpl. by rewrite bool_decide_eq_false_2.
Qed.

Lemma dotted_name_clean m :
  is_dotted_name m = true → clean (split_dot m).
Proof.
  unfold is_dotted_name. intros Hm.
  pose proof (split_on_no_sep "."%char m) as Hdots. fold (split_dot m) in Hdots.
  apply Forall_forall. intros seg Hseg.
  assert (seg ≠ "") as Hne.
  { pose proof (proj1 (forallb_forall _ _) Hm seg) as H.
    apply andb_true_iff in H as [H _]; [|by apply list_elem_of_In].
    by apply bool_decide_eq_true in H. }
  apply (proj1 (Forall_forall _ _) Hdots) in Hseg.
  split; [done|]. split; intros ->; by vm_compute in Hseg.
Qed.

Lemma suffixed_clean seg :
  seg ≠ "" → contains_char "."%char seg = false →
  (seg +:+ ".py") ≠ "" ∧ (seg +:+ ".py") ≠ "." ∧ (seg +:+ ".py") ≠ "..".
Proof.
  intros Hne Hdot. destruct seg as [|c seg]; [done|]. simpl in *.
  apply orb_false_iff in Hdot as [Hc _]. apply bool_decide_eq_false in Hc.
  split; [done|]. split.
  - intros [= -> H]. done.
  - intros [= -> H]. done.
Qed.

(** X6.  For a dotted name as the parser yields it and a normalised base
    directory, normalisation changes nothing: the path [resolve_module]
    returns is one of its two candidates as written, and it lies strictly
    below the base directory.  Resolution never leaves the directory it
    searches. *)
Theorem resolve_module_below_base fs m base r :
  clean base → is_dotted_name m = true →
  resolve_module fs m base = Some r →
  (r = add_suffix (base ++ split_dot m) ".py" ∨
   r = base ++ split_dot m ++ ["__init__.py"]) ∧
  base `prefix_of` r ∧ r ≠ base.
Proof.
  intros Hbase Hm Hres.
  pose proof (dotted_name_clean m Hm) as Hsegs.
  destruct (split_on_snoc "."%char m) as (segs & seg & Hsplit).
  fold (split_dot m) in Hsplit. rewrite Hsplit in Hsegs.
  apply clean_app in Hsegs as [Hinit Hlast].
  assert (Hdot : contains_char "."%char seg = false).
  { pose proof (split_on_no_sep "."%char m) as Hd. fold (split_dot m) in Hd.
    rewrite Hsplit in Hd. apply Forall_app in Hd as [_ Hd].
    exact (proj1 (Forall_singleton _ _) Hd). }
  assert (Hsingle : add_suffix (base ++ split_dot m) ".py" = base ++ segs ++ [seg +:+ ".py"]).
  { by rewrite Hsplit, app_assoc, add_suffix_snoc, <- app_assoc. }
  assert (clean (base ++ segs ++ [seg +:+ ".py"])) as Hc1.
  { apply clean_app. split; [done|]. apply clean_app. split; [done|].
    apply Forall_singleton, suffixed_clean; [|done].
    exact (proj1 (proj1 (Forall_singleton _ _) Hlast)). }
  assert (clean (base ++ split_dot m ++ ["__init__.py"])) as Hc2.
  { rewrite Hsplit. apply clean_app. split; [done|]. apply clean_app. split.
    - by apply clean_app.
    - repeat constructor; done. }
  rewrite resolve_module_first_existing, first_existing_two in Hres.
  assert (Hne : ∀ tail : path, tail ≠ [] → base ++ tail ≠ base).
  { intros tail Ht Heq. apply Ht. rewrite <- (app_nil_r base) in Heq at 2.
    by apply app_inv_head in Heq. }
  destruct (isfile fs _) in Hres.
  - injection Hres as <-. rewrite Hsingle, abspath_of_clean by done.
    split; [by left|]. split; [by eexists|]. apply Hne. by destruct segs.
  - destruct (isfile fs _) in Hres; [|done]. injection Hres as <-.
    rewrite abspath_of_clean by done.
    split; [by right|]. split; [by eexists|]. apply Hne.
    rewrite Hsplit. by destruct segs.
Qed.

Lemma resolve_module_below_base_witness :
  (["home"; "repo"; "app"; "core.py"]
   = add_suffix (["home"; "repo"] ++ split_dot "app.core") ".py" ∨
   ["home"; "repo"; "app"; "core.py"]
   = ["home"; "repo"] ++ split_dot "app.core" ++ ["__init__.py"]) ∧
  ["home"; "repo"] `prefix_of` ["home"; "repo"; "app"; "core.py"] ∧
  ["home"; "repo"; "app"; "core.py"] ≠ ["home"; "repo"].
Proof.
  apply (resolve_module_below_base repo_fs "app.core" ["home"; "repo"]).
  - repeat constructor; done.
  - vm_compute; reflexivity.
  - vm_compute; reflexivity.
Defined.

(** X7.  A relative import whose level asks for more ancestors than the
    importing file's directory has is not an error: the climb stops at the
    top directory, and the candidates are taken from there. *)
Theorem relative_import_saturates fs module level cur root :
  length (dirname (abspath cur)) < level →
  resolve_import fs (ImportFrom module level) cur root
  = let candidate := if truthy module then split_dot (default "" module) else [] in
    option_list (first_existing fs [ add_suffix candidate ".py";
                                     candidate ++ ["__init__.py"] ]).
Proof.
  intros Hlevel. rewrite resolve_import_relative by lia. cbv zeta.
  rewrite iter_dirname.
  replace (length (dirname (abspath cur)) - (level - 1)) with 0 by lia.
  rewrite take_0. by destruct (truthy module).
Qed.

Lemma relative_import_saturates_witness :
  resolve_import precedence_fs (ImportFrom (Some "proj.util") 9)
    ["proj"; "pkg"; "a.py"] ["proj"]
  = [["proj"; "util.py"]].
Proof.
  etransitivity.
  - apply (relative_import_saturates precedence_fs (Some "proj.util") 9).
    vm_compute. lia.
  - vm_compute; reflexivity.
Defined.

(** *** The traversal *)

Section VisitFacts.

Context (fs : gmap path inode) (parse : string → option (list import_node)).
Context (project_root : path) (spec : ignore_spec).

Local Abbreviation crawl := (collect_files fs parse project_root spec).
Local Abbreviation visits := (visit fs parse project_root spec).
Local Abbreviation visits_all := (visit_all fs parse project_root spec).
Local Abbreviation targets := (import_targets fs project_root).

Lemma visit_paths_visit_all (rec : path → state → option state) :
  (∀ fp st st', rec fp st = Some st' → visits fp st st') →
  ∀ l st st',
    Forall (λ fp, commonpath fp project_root = project_root) l →
    visit_paths project_root rec l st = Some st' → visits_all l st st'.
Proof.
  intros Hrec l. induction l as [|fp rest IH]; intros st st' Hin; cbn [visit_paths].
  - intros [= <-]. constructor.
  - apply Forall_cons in Hin as [Hfp Hrest].
    rewrite bool_decide_eq_true_2 by done.
    destruct (rec fp st) as [st1|] eqn:E; [|done]. intros Hloop.
    econstructor; eauto.
Qed.

Lemma import_targets_within abs_path nodes :
  Forall (λ fp, commonpath fp project_root = project_root) (targets abs_path nodes).
Proof.
  unfold import_targets. apply Forall_forall. intros fp Hfp.
  by apply list_elem_of_filter in Hfp as [? _].
Qed.

(** Every call that returns is a derivation of [visit]. *)
Lemma collect_files_visit fuel :
  ∀ fp st st', crawl fuel fp st = Some st' → visits fp st st'.
Proof.
  induction fuel as [|fuel IH]; intros fp st st'; [done|].
  rewrite collect_files_unfold. cbv zeta.
  destruct (dict_mem _ _) eqn:Hmem.
  { intros [= <-]. by apply visit_present, dict_mem_true. }
  apply dict_mem_false in Hmem.
  destruct (should_ignore _ _ _) eqn:Hign.
  { intros [= <-]. by apply visit_ignored. }
  destruct (read_text _ _) as [content|] eqn:Hread.
  2:{ intros [= <-]. by apply visit_unreadable. }
  destruct (parse content) as [nodes|] eqn:Hparse.
  2:{ intros [= <-]. by apply visit_unparsable. }
  rewrite visit_nodes_targets. intros Hloop.
  eapply visit_imports; eauto.
  eapply visit_paths_visit_all; eauto using import_targets_within.
Qed.

(** What every derivation gives: the new state extends the old one. *)
Lemma visit_extends :
  (∀ fp st st', visits fp st st' → extends fs st st') ∧
  (∀ l st st', visits_all l st st' → extends fs st st').
Proof.
  apply visit_mutind; intros;
    eauto using extends_refl, extends_read_error, extends_trans.
  - eapply extends_trans; [|apply extends_parse_error].
    apply extends_record; [by apply dict_mem_false|done].
  - eapply extends_trans; [|eassumption].
    apply extends_record; [by apply dict_mem_false|done].
Qed.

Lemma extends_keys st st' k :
  extends fs st st' → k ∈ keys (collected st) → k ∈ keys (collected st').
Proof.
  intros (added & _ & Hc & _) Hk. rewrite Hc, keys_app. apply elem_of_app. by left.
Qed.

Lemma extends_entries st st' kv :
  extends fs st st' → kv ∈ collected st → kv ∈ collected st'.
Proof. intros (added & _ & Hc & _) Hk. rewrite Hc. apply elem_of_app. by left. Qed.

Lemma settled_mono st st' p :
  extends fs st st' →
  settled fs project_root spec st p → settled fs project_root spec st' p.
Proof. intros Hext [?|?]; [left; by eapply extends_keys|by right]. Qed.

Lemma closed_key_mono st st' k :
  extends fs st st' →
  closed_key fs parse project_root spec st k →
  closed_key fs parse project_root spec st' k.
Proof. intros Hext Hcl content nodes t ???. eapply settled_mono; eauto. Qed.

Lemma keys_after_record st p content k :
  p ∉ keys (collected st) →
  k ∈ keys (collected (after_record st p content)) →
  k ∈ keys (collected st) ∨ k = p.
Proof.
  intros Hp. rewrite after_record_fresh by done. simpl.
  rewrite keys_app, elem_of_app. simpl. rewrite list_elem_of_singleton. tauto.
Qed.

Lemma key_after_record st p content :
  p ∉ keys (collected st) → p ∈ keys (collected (after_record st p content)).
Proof.
  intros Hp. rewrite after_record_fresh by done. simpl.
  rewrite keys_app, elem_of_app. right. simpl. by apply list_elem_of_singleton.
Qed.

(** The traversal is complete: the file of a call is settled when the call
    returns, and every key the call adds has all its targets settled. *)
Lemma visit_closed :
  (∀ fp st st', visits fp st st' →
     settled fs project_root spec st' (abspath fp) ∧
     ∀ k, k ∈ keys (collected st') →
          k ∈ keys (collected st) ∨ closed_key fs parse project_root spec st' k) ∧
  (∀ l st st', visits_all l st st' →
     Forall (λ t, settled fs project_root spec st' (abspath t)) l ∧
     ∀ k, k ∈ keys (collected st') →
          k ∈ keys (collected st) ∨ closed_key fs parse project_root spec st' k).
Proof.
  apply visit_mutind.
  - intros fp st Hin. split; [by left|auto].
  - intros fp st Hnew Hign. split; [right; by left|auto].
  - intros fp st Hnew Hign Hread. split; [right; by right|auto].
  - intros fp st content Hnew Hign Hread Hparse. split.
    + left. by apply key_after_record.
    + intros k Hk.
      destruct (keys_after_record st _ content k Hnew Hk) as [Hk'| ->]; [by left|].
      right. intros c nodes t Hc Hn. congruence.
  - intros fp st content nodes st' Hnew Hign Hread Hparse Hall [IHs IHk].
    pose proof (proj2 visit_extends _ _ _ Hall) as Hext. split.
    + left. eapply extends_keys; [exact Hext|]. by apply key_after_record.
    + intros k Hk. destruct (IHk k Hk) as [Hk1|Hcl]; [|by right].
      destruct (keys_after_record st _ content k Hnew Hk1) as [Hk'| ->]; [by left|].
      right. intros c nodes' t Hc Hn Ht.
      assert (nodes' = nodes) as -> by congruence.
      pose proof (proj1 (Forall_forall _ _) IHs t Ht) as Hs. cbv beta in Hs.
      rewrite abspath_of_clean in Hs; [done|].
      exact (proj1 (Forall_forall _ _) (import_targets_clean fs project_root _ _) t Ht).
  - intros st. split; [constructor|auto].
  - intros fp rest st st1 st2 Hv [IHs IHk] Hall [IHs' IHk'].
    pose proof (proj2 visit_extends _ _ _ Hall) as Hext. split.
    + constructor; [by eapply settled_mono|done].
    + intros k Hk. destruct (IHk' k Hk) as [Hk1|Hcl]; [|by right].
      destruct (IHk k Hk1) as [?|Hcl]; [by left|].
      right. by eapply closed_key_mono.
Qed.

(** The traversal is sound: every key a call adds is reached from the
    file of the call through imports. *)
Lemma visit_reach :
  (∀ fp st st', visits fp st st' →
     ∀ k, k ∈ keys (collected st') →
          k ∈ keys (collected st) ∨ reach fs parse project_root spec (abspath fp) k) ∧
  (∀ l st st', visits_all l st st' →
     ∀ k, k ∈ keys (collected st') →
          k ∈ keys (collected st) ∨
          ∃ t, t ∈ l ∧ reach fs parse project_root spec (abspath t) k).
Proof.
  apply visit_mutind; try (intros; by left).
  - intros fp st content Hnew Hign Hread Hparse k Hk.
    destruct (keys_after_record st _ content k Hnew Hk) as [Hk'| ->]; [by left|].
    right. apply reach_here. by split.
  - intros fp st content nodes st' Hnew Hign Hread Hparse Hall IH k Hk.
    destruct (IH k Hk) as [Hk1|(t & Ht & Hreach)].
    + destruct (keys_after_record st _ content k Hnew Hk1) as [Hk'| ->]; [by left|].
      right. apply reach_here. by split.
    + right. rewrite abspath_of_clean in Hreach.
      * eapply reach_via; eauto. by split.
      * exact (proj1 (Forall_forall _ _) (import_targets_clean fs project_root _ _) t Ht).
  - intros fp rest st st1 st2 Hv IH Hall IH' k Hk.
    destruct (IH' k Hk) as [Hk1|(t & Ht & Hreach)].
    + destruct (IH k Hk1) as [?|Hreach]; [by left|].
      right. exists fp. split; [by left|done].
    + right. exists t. split; [by right|done].
Qed.

Lemma truthful_mono st st' e :
  extends fs st st' →
  truthful fs parse project_root spec st e → truthful fs parse project_root spec st' e.
Proof.
  intros Hext. destruct e as [p|p|p]; simpl; [|done|].
  - intros (c & Hc & Hr). exists c. split; [by eapply extends_entries|done].
  - intros (c & Hc & Hp). exists c. split; [by eapply extends_entries|done].
Qed.

Lemma entry_after_record st p content :
  p ∉ keys (collected st) → (p, content) ∈ collected (after_record st p content).
Proof.
  intros Hp. rewrite after_record_fresh by done. simpl.
  apply elem_of_app. right. by apply list_elem_of_singleton.
Qed.

(** Every line a call adds to the log says what happened. *)
Lemma visit_truthful :
  (∀ fp st st', visits fp st st' →
     ∃ new_out, out st' = out st ++ new_out ∧
                Forall (truthful fs parse project_root spec st') new_out) ∧
  (∀ l st st', visits_all l st st' →
     ∃ new_out, out st' = out st ++ new_out ∧
                Forall (truthful fs parse project_root spec st') new_out).
Proof.
  apply visit_mutind.
  - intros fp st _. exists []. by rewrite app_nil_r.
  - intros fp st _ _. exists []. by rewrite app_nil_r.
  - intros fp st Hnew Hign Hread. exists [ErrorReading (abspath fp)].
    split; [done|]. by repeat constructor.
  - intros fp st content Hnew Hign Hread Hparse.
    exists [ReadOk (abspath fp); ErrorParsing (abspath fp)]. split.
    + simpl. by rewrite <- app_assoc.
    + repeat constructor; exists content;
        (split; [by apply entry_after_record|done]).
  - intros fp st content nodes st' Hnew Hign Hread Hparse Hall (new_out & Ho & Ht).
    pose proof (proj2 visit_extends _ _ _ Hall) as Hext.
    exists (ReadOk (abspath fp) :: new_out). split.
    + rewrite Ho. simpl. by rewrite <- app_assoc.
    + constructor; [|done]. exists content. split; [|done].
      eapply extends_entries; [exact Hext|]. by apply entry_after_record.
  - intros st. exists []. by rewrite app_nil_r.
  - intros fp rest st st1 st2 Hv (o1 & Ho1 & Ht1) Hall (o2 & Ho2 & Ht2).
    pose proof (proj2 visit_extends _ _ _ Hall) as Hext.
    exists (o1 ++ o2). split.
    + by rewrite Ho2, Ho1, <- app_assoc.
    + apply Forall_app. split; [|done].
      eapply Forall_impl; [exact Ht1|]. intros e. by apply truthful_mono.
Qed.

Lemma reach_start a k :
  reach fs parse project_root spec a k → visitable fs project_root spec a.
Proof. by destruct 1. Qed.

(** In a state where every key is closed, whatever is reached from a key
    is a key. *)
Lemma reach_closed st a k :
  (∀ k', k' ∈ keys (collected st) → closed_key fs parse project_root spec st k') →
  reach fs parse project_root spec a k →
  a ∈ keys (collected st) → k ∈ keys (collected st).
Proof.
  intros Hclosed. induction 1 as [a Ha|a t k content nodes Ha Hread Hparse Ht Hreach IH];
    intros Hin; [done|].
  apply IH. destruct (Hclosed a Hin content nodes t Hread Hparse Ht) as [?|[Hign|Hun]];
    [done|exfalso..].
  - apply reach_start in Hreach as [Hvis _]. congruence.
  - apply reach_start in Hreach as [_ [c Hc]]. congruence.
Qed.

End VisitFacts.

(** X8.  The traversal misses nothing.  When a call returns, its file is
    a key, or was ignored, or could not be read; and for every key the
    call added, each path its imports resolve to inside the root is a key,
    or was ignored, or could not be read. *)
Theorem collect_files_closed fs parse root spec fuel entry st st' :
  collect_files fs parse root spec fuel entry st = Some st' →
  settled fs root spec st' (abspath entry) ∧
  (∀ k, k ∈ keys (collected st') →
        k ∈ keys (collected st) ∨
        ∀ content nodes t,
          read_text fs k = Some content →
          parse content = Some nodes →
          t ∈ import_targets fs root k nodes →
          t ∈ keys (collected st') ∨
          should_ignore t root spec = true ∨
          read_text fs t = None).
Proof.
  intros Hrun. apply collect_files_visit in Hrun.
  apply (proj1 (visit_closed fs parse root spec)) in Hrun as [Hs Hk]. split; [done|].
  intros k Hin. destruct (Hk k Hin) as [?|Hcl]; [by left|right; exact Hcl].
Qed.

Lemma collect_files_closed_witness :
  settled faulty_fs ["proj"] None
    (State [ (["proj"; "a.py"], "import broken;import locked;import good");
             (["proj"; "broken.py"], "(");
             (["proj"; "good.py"], "x = 1") ]
           [ ReadOk ["proj"; "a.py"]; ReadOk ["proj"; "broken.py"];
             ErrorParsing ["proj"; "broken.py"]; ErrorReading ["proj"; "locked.py"];
             ReadOk ["proj"; "good.py"] ])
    (abspath ["proj"; "a.py"]).
Proof.
  apply (collect_files_closed faulty_fs toy_parse ["proj"] None 5 ["proj"; "a.py"]
           empty_state).
  vm_compute; reflexivity.
Defined.

(** X9.  A run from an entry file collects exactly the files reached from
    it: a path is a key of the dictionary if and only if a chain of imports
    leads from the entry file to it, through files that are not ignored and
    can be read, each import resolved by [resolve_import] and kept by the
    root test. *)
Theorem collect_exactly_reachable fs parse root spec entry st :
  collect fs parse root spec entry = Some st →
  ∀ k, k ∈ keys (collected st) ↔ reach fs parse root spec (abspath entry) k.
Proof.
  intros Hrun. apply collect_files_visit in Hrun.
  pose proof (proj1 (visit_closed fs parse root spec) _ _ _ Hrun) as [Hs Hk].
  pose proof (proj1 (visit_reach fs parse root spec) _ _ _ Hrun) as Hsound.
  intros k. split.
  - intros Hin. destruct (Hsound k Hin) as [Hnil|?]; [|done].
    by apply elem_of_nil in Hnil.
  - intros Hreach. eapply reach_closed; [|exact Hreach|].
    + intros k' Hk'. destruct (Hk k' Hk') as [Hnil|?]; [|done].
      by apply elem_of_nil in Hnil.
    + destruct Hs as [?|[Hign|Hun]]; [done|exfalso..].
      * apply reach_start in Hreach as [Hvis _]. congruence.
      * apply reach_start in Hreach as [_ [c Hc]]. congruence.
Qed.

Lemma collect_exactly_reachable_witness :
  ["proj"; "b.py"] ∈ [["proj"; "a.py"]; ["proj"; "b.py"]] ↔
  reach cycle_fs toy_parse ["proj"] None (abspath ["proj"; "a.py"]) ["proj"; "b.py"].
Proof.
  apply (collect_exactly_reachable cycle_fs toy_parse ["proj"] None ["proj"; "a.py"]
           (State [ (["proj"; "a.py"], "import b");
                    (["proj"; "b.py"], "x = 1;import a") ]
                  [ ReadOk ["proj"; "a.py"]; ReadOk ["proj"; "b.py"] ])).
  vm_compute; reflexivity.
Defined.

(** X10.  Whatever the entry file and the dictionary passed in, every
    entry a call adds is a normalised path that was not ignored, stored
    with the content the disk holds for it, and it lies under the root
    unless it is the entry file itself: the entry file is the only file a
    call can record from outside the root. *)
Theorem collect_files_new_entries fs parse root spec fuel entry st st' :
  collect_files fs parse root spec fuel entry st = Some st' →
  ∀ k v, (k, v) ∈ collected st' →
         (k, v) ∈ collected st ∨
         ((k = abspath entry ∨ root `prefix_of` k) ∧
          clean k ∧
          should_ignore k root spec = false ∧
          read_text fs k = Some v).
Proof.
  apply (collect_files_ind fs parse root spec
           (λ fp, abspath fp = abspath entry ∨ root `prefix_of` abspath fp)
           (λ st st', ∀ k v, (k, v) ∈ collected st' →
              (k, v) ∈ collected st ∨
              ((k = abspath entry ∨ root `prefix_of` k) ∧ clean k ∧
               should_ignore k root spec = false ∧ read_text fs k = Some v))).
  - auto.
  - intros a b c Hab Hbc k v Hk. destruct (Hbc k v Hk) as [Hk'|?]; auto.
  - intros p Hcl Hin. right. rewrite abspath_of_clean by done.
    by apply commonpath_within.
  - auto.
  - intros st0 p content HQ Hmem Hign Hread k v. simpl.
    rewrite dict_set_fresh by done. rewrite elem_of_app, list_elem_of_singleton.
    intros [?|[= -> ->]]; [by left|right].
    split; [done|]. split; [apply abspath_clean|done].
  - auto.
  - by left.
Qed.

Lemma collect_files_new_entries_witness :
  (["other"; "a.py"], "x = 1") ∈ @nil (path * string) ∨
  ((["other"; "a.py"] = abspath ["other"; "a.py"] ∨
    ["proj"] `prefix_of` ["other"; "a.py"]) ∧
   clean ["other"; "a.py"] ∧
   should_ignore ["other"; "a.py"] ["proj"] None = false ∧
   read_text outside_fs ["other"; "a.py"] = Some "x = 1").
Proof.
  apply (collect_files_new_entries outside_fs toy_parse ["proj"] None 3 ["other"; "a.py"]
           empty_state
           (State [(["other"; "a.py"], "x = 1")] [ReadOk ["other"; "a.py"]])).
  - vm_compute; reflexivity.
  - by_evaluation.
Defined.

(** X11.  The log of a run tells the truth about the dictionary the run
    returns.  Each successful read is of a key stored with the content the
    disk holds; each parse error is about a key whose stored content does
    not parse; each read error is about a file that was not ignored, that
    the disk cannot deliver, and that is not a key. *)
Theorem collect_log_truthful fs parse root spec entry st :
  collect fs parse root spec entry = Some st →
  Forall (truthful fs parse root spec st) (out st) ∧
  Forall (λ e, match e with
               | ErrorReading p => p ∉ keys (collected st)
               | ReadOk p | ErrorParsing p => p ∈ keys (collected st)
               end) (out st).
Proof.
  intros Hrun. pose proof (collect_files_extends _ _ _ _ _ _ _ _ Hrun)
    as (added & ? & Hc & _ & _ & _ & _ & Hdisk).
  simpl in Hc. apply collect_files_visit in Hrun.
  destruct (proj1 (visit_truthful fs parse root spec) _ _ _ Hrun) as (new_out & Ho & Ht).
  simpl in Ho. rewrite Ho. split; [done|].
  eapply Forall_impl; [exact Ht|]. intros [p|p|p]; simpl.
  - intros (c & Hin & _). apply list_elem_of_fmap. by exists (p, c).
  - intros [Hnone _] Hin. apply list_elem_of_fmap in Hin as ([k v] & -> & Hin).
    rewrite Hc in Hin. apply Hdisk in Hin. simpl in Hnone. congruence.
  - intros (c & Hin & _). apply list_elem_of_fmap. by exists (p, c).
Qed.

Lemma collect_log_truthful_witness :
  Forall (truthful faulty_fs toy_parse ["proj"] None
            (State [ (["proj"; "a.py"], "import broken;import locked;import good");
                     (["proj"; "broken.py"], "(");
                     (["proj"; "good.py"], "x = 1") ]
                   [ ReadOk ["proj"; "a.py"]; ReadOk ["proj"; "broken.py"];
                     ErrorParsing ["proj"; "broken.py"]; ErrorReading ["proj"; "locked.py"];
                     ReadOk ["proj"; "good.py"] ]))
         [ ReadOk ["proj"; "a.py"]; ReadOk ["proj"; "broken.py"];
           ErrorParsing ["proj"; "broken.py"]; ErrorReading ["proj"; "locked.py"];
           ReadOk ["proj"; "good.py"] ].
Proof.
  apply (collect_log_truthful faulty_fs toy_parse ["proj"] None ["proj"; "a.py"]
           (State _ _)).
  vm_compute; reflexivity.
Defined.

(** X12.  The dictionary of a run is empty exactly when the entry file is
    ignored or cannot be read; in every other case its first entry is the
    entry file with its content, whatever the file imports and whether or
    not it parses. *)
Theorem collect_entry_first fs parse root spec entry st :
  collect fs parse root spec entry = Some st →
  (collected st = [] ↔
   should_ignore (abspath entry) root spec = true ∨ read_text fs (abspath entry) = None) ∧
  (∀ content,
     should_ignore (abspath entry) root spec = false →
     read_text fs (abspath entry) = Some content →
     head (collected st) = Some (abspath entry, content)).
Proof.
  intros Hrun. apply collect_files_visit in Hrun.
  inversion Hrun as [fp st0 Hin|fp st0 Hnew Hign|fp st0 Hnew Hign Hread
                    |fp st0 content Hnew Hign Hread Hparse
                    |fp st0 content nodes st1 Hnew Hign Hread Hparse Hall]; subst.
  - by apply elem_of_nil in Hin.
  - split; [split; auto|]. intros c Hc. congruence.
  - split; [split; auto|]. intros c _ Hc. congruence.
  - simpl. split.
    + split; [done|]. intros [?|?]; congruence.
    + intros c _ Hc. congruence.
  - apply (proj2 (visit_extends fs parse root spec)) in Hall
      as (added & _ & Hc & _).
    rewrite after_record_fresh in Hc by done. simpl in Hc. rewrite Hc. split.
    + split; [done|]. intros [?|?]; congruence.
    + intros c _ Hc'. simpl. congruence.
Qed.

Lemma collect_entry_first_witness :
  head (collected (State [ (["proj"; "a.py"], "import b");
                           (["proj"; "b.py"], "x = 1;import a") ]
                         [ ReadOk ["proj"; "a.py"]; ReadOk ["proj"; "b.py"] ]))
  = Some (abspath ["proj"; "a.py"], "import b").
Proof.
  apply (proj2 (collect_entry_first cycle_fs toy_parse ["proj"] None ["proj"; "a.py"]
                  (State _ _) ltac:(vm_compute; reflexivity))).
  - vm_compute; reflexivity.
  - vm_compute; reflexivity.
Defined.

(** *** [main] *)

Lemma dirname_prefix p : dirname p `prefix_of` p.
Proof. apply removelast_prefix. Qed.

(** X13.  [main] always comes to an end.  When it writes a report, it was
    given one path that is a regular file; the root it used is what
    [find_git_root] found from the directory of that file, or that
    directory itself when nothing was found; the entry file lies under
    that root, and so does every key of the dictionary, none of which was
    ignored. *)
Theorem main_stays_in_root fs parse pathspec from_lines argv :
  is_Some (main fs parse pathspec from_lines argv) ∧
  (∀ root output_file printed st,
     main fs parse pathspec from_lines argv = Some (Reported root output_file printed st) →
     ∃ script starting_file git_root spec,
       argv = [script; starting_file] ∧
       isfile fs starting_file = true ∧
       find_git_root fs (dirname (abspath starting_file)) = Some git_root ∧
       root = default (dirname (abspath starting_file)) git_root ∧
       root `prefix_of` abspath starting_file ∧
       output_file = basename root +:+ "_collected_code.txt" ∧
       collect fs parse root spec starting_file = Some st ∧
       (∀ k, k ∈ keys (collected st) →
             root `prefix_of` k ∧ should_ignore k root spec = false)).
Proof.
  unfold main.
  destruct argv as [|script [|starting_file [|? ?]]]; try (split; [done|done]).
  destruct (isfile fs starting_file) eqn:Hfile; [|split; [done|done]].
  cbv zeta.
  destruct (find_git_root_spec fs (dirname (abspath starting_file))) as (g & Hg & Hspec).
  rewrite Hg. cbn [mbind option_bind].
  set (root := default (dirname (abspath starting_file)) g).
  destruct (load_gitignore_spec fs pathspec from_lines root) as [spec printed] eqn:Hload.
  destruct (collect_total fs parse root spec starting_file) as [st Hst].
  unfold collect in Hst. rewrite Hst. cbn [mbind option_bind]. split; [done|].
  intros root' output_file printed' st' [= <- <- <- <-].
  assert (Hclean : abspath (dirname (abspath starting_file)) = dirname (abspath starting_file)).
  { apply abspath_of_clean, clean_removelast, abspath_clean. }
  assert (Hroot : root `prefix_of` abspath starting_file).
  { unfold root. destruct g as [g|]; simpl; [|apply dirname_prefix].
    destruct Hspec as (Hpre & _). rewrite Hclean in Hpre.
    etrans; [exact Hpre|apply dirname_prefix]. }
  exists script, starting_file, g, spec. split_and!; try done.
  intros k Hk.
  destruct (collect_files_safe fs parse root spec _ _ _ _ Hroot Hst k Hk)
    as [Hnil|?]; [by apply elem_of_nil in Hnil|done].
Qed.

Lemma main_stays_in_root_witness :
  ∃ script starting_file git_root spec,
    [["crawl.py"]; ["home"; "repo"; "vendor"; "lib.py"]] = [script; starting_file] ∧
    isfile repo_fs starting_file = true ∧
    find_git_root repo_fs (dirname (abspath starting_file)) = Some git_root ∧
    ["home"; "repo"] = default (dirname (abspath starting_file)) git_root ∧
    ["home"; "repo"] `prefix_of` abspath starting_file ∧
    "repo_collected_code.txt" = basename ["home"; "repo"] +:+ "_collected_code.txt" ∧
    collect repo_fs toy_parse ["home"; "repo"] spec starting_file
    = Some (State [ (["home"; "repo"; "vendor"; "lib.py"], "import app.core");
                    (["home"; "repo"; "app"; "core.py"], "from . import helpers;import os");
                    (["home"; "repo"; "app"; "__init__.py"], "") ]
                  [ ReadOk ["home"; "repo"; "vendor"; "lib.py"];
                    ReadOk ["home"; "repo"; "app"; "core.py"];
                    ReadOk ["home"; "repo"; "app"; "__init__.py"] ]) ∧
    (∀ k, k ∈ keys [ (["home"; "repo"; "vendor"; "lib.py"], "import app.core");
                     (["home"; "repo"; "app"; "core.py"], "from . import helpers;import os");
                     (["home"; "repo"; "app"; "__init__.py"], "") ] →
          ["home"; "repo"] `prefix_of` k ∧ should_ignore k ["home"; "repo"] spec = false).
Proof.
  apply (proj2 (main_stays_in_root repo_fs toy_parse false toy_from_lines
                  [["crawl.py"]; ["home"; "repo"; "vendor"; "lib.py"]])
           ["home"; "repo"] "repo_collected_code.txt"
           [PathspecMissingMessage; CollectedMessage 3 "repo_collected_code.txt"]).
  vm_compute; reflexivity.
Defined.

Lemma prefix_clean (q p : path) : q `prefix_of` p → clean p → clean q.
Proof. intros [k ->] Hcl. by apply clean_app in Hcl as [? _]. Qed.

Lemma find_git_root_loop_hit fs fuel d :
  isdir fs (d ++ [".git"]) = true → find_git_root_loop fs fuel d = Some (Some d).
Proof. intros H. destruct fuel; simpl; unfold path_join; by rewrite H. Qed.

(** X14.  The answer of [find_git_root] is the same all the way up: from
    the directory it returned, and from every directory between that one
    and the starting directory, it returns the same directory again. *)
Theorem find_git_root_stable fs start g d :
  find_git_root fs start = Some (Some g) →
  g `prefix_of` d → d `prefix_of` abspath start →
  find_git_root fs d = Some (Some g).
Proof.
  intros Hg Hgd Hd.
  destruct (find_git_root_spec fs start) as (r & Hr & Hspec).
  rewrite Hr in Hg. injection Hg as ->. destruct Hspec as (Hpre & Hgit & Hnear).
  assert (abspath d = d) as Hclean.
  { apply abspath_of_clean. eapply prefix_clean; [exact Hd|apply abspath_clean]. }
  destruct (find_git_root_spec fs d) as (r' & Hr' & Hspec).
  rewrite Hclean in Hspec. rewrite Hr'. destruct r' as [g'|].
  - destruct Hspec as (Hpre' & Hgit' & Hnear').
    assert (g `prefix_of` g') by (by apply Hnear').
    assert (g' `prefix_of` g) by (apply Hnear; [by etrans|done]).
    do 2 f_equal. by apply (anti_symm prefix).
  - exfalso. simpl in Hspec. rewrite (Hspec g Hgd) in Hgit. done.
Qed.

Lemma find_git_root_stable_witness :
  find_git_root repo_fs ["home"; "repo"; "app"] = Some (Some ["home"; "repo"]).
Proof.
  apply (find_git_root_stable repo_fs ["home"; "repo"; "app"; "deep"; "er"]).
  - vm_compute; reflexivity.
  - by exists ["app"].
  - by exists ["deep"; "er"].
Defined.

(** *** [load_gitignore_spec] *)

(** X15.  [load_gitignore_spec] never fails.  It returns a spec exactly
    when [pathspec] is available, [.gitignore] under the root is a regular
    file that can be read, and its text compiles, and then it prints
    nothing.  It prints its error exactly when [pathspec] is available and
    something is at [.gitignore] that cannot be read or does not compile (a
    directory of that name, say); in every other case it returns no spec
    in silence. *)
Theorem load_gitignore_spec_degrades fs pathspec from_lines root :
  let gitignore := abspath (root ++ [".gitignore"]) in
  let result := load_gitignore_spec fs pathspec from_lines root in
  (∀ m, result.1 = Some m ↔
        pathspec = true ∧
        ∃ text, fs !! gitignore = Some (RegularFile text) ∧ from_lines text = Some m) ∧
  (is_Some result.1 → result.2 = []) ∧
  (result.2 = [GitignoreErrorMessage] ↔
   pathspec = true ∧ is_Some (fs !! gitignore) ∧
   ∀ text, fs !! gitignore = Some (RegularFile text) → from_lines text = None) ∧
  (result.2 = [] ∨ result.2 = [GitignoreErrorMessage]).
Proof.
  intros gitignore result. unfold result, load_gitignore_spec, path_exists, path_join.
  cbv zeta. change (normpath (root ++ [".gitignore"])) with gitignore.
  fold gitignore. unfold read_text.
  destruct pathspec; rewrite ?andb_true_r, ?andb_false_r; simpl.
  - case_bool_decide as Hex.
    + destruct (fs !! gitignore) as [[text| |]|] eqn:E; simpl.
      * destruct (from_lines text) as [m'|] eqn:Em; simpl;
          split_and!; try (intros; split); try naive_solver.
      * split_and!; try (intros; split); try naive_solver.
      * split_and!; try (intros; split); try naive_solver.
      * by destruct Hex.
    + assert (fs !! gitignore = None) as E.
      { destruct (fs !! gitignore) eqn:E; [|done]. exfalso. apply Hex. by eexists. }
      split_and!; try (intros; split); try naive_solver.
  - split_and!; try (intros; split); try naive_solver.
Qed.

Lemma load_gitignore_spec_degrades_witness :
  (load_gitignore_spec repo_fs true toy_from_lines ["home"; "repo"]).2 = [].
Proof.
  apply (proj1 (proj2 (load_gitignore_spec_degrades repo_fs true toy_from_lines
                         ["home"; "repo"]))).
  vm_compute. by eexists.
Defined.

(** *** Runs that share a dictionary *)

(** X16.  Calls compose.  When every key of the dictionary passed in has
    its import targets settled (as after an earlier run, or in an empty
    dictionary), the call returns a dictionary whose keys are the old keys
    together with exactly the files reached from the new entry file, and
    every key of the result has its import targets settled again. *)
Theorem collect_files_accumulates fs parse root spec fuel entry st st' :
  Forall (closed_key fs parse root spec st) (keys (collected st)) →
  collect_files fs parse root spec fuel entry st = Some st' →
  (∀ k, k ∈ keys (collected st') ↔
        k ∈ keys (collected st) ∨ reach fs parse root spec (abspath entry) k) ∧
  Forall (closed_key fs parse root spec st') (keys (collected st')).
Proof.
  intros Hold Hrun. apply collect_files_visit in Hrun.
  pose proof (proj1 (visit_extends fs parse root spec) _ _ _ Hrun) as Hext.
  pose proof (proj1 (visit_closed fs parse root spec) _ _ _ Hrun) as [Hs Hk].
  pose proof (proj1 (visit_reach fs parse root spec) _ _ _ Hrun) as Hsound.
  assert (Hall : ∀ k, k ∈ keys (collected st') → closed_key fs parse root spec st' k).
  { intros k Hin. destruct (Hk k Hin) as [Hin0|?]; [|done].
    eapply closed_key_mono; [exact Hext|].
    exact (proj1 (Forall_forall _ _) Hold k Hin0). }
  split; [|by apply Forall_forall].
  intros k. split; [apply Hsound|].
  intros [Hin|Hreach]; [by eapply extends_keys|].
  eapply reach_closed; [exact Hall|exact Hreach|].
  destruct Hs as [?|[Hign|Hun]]; [done|exfalso..].
  - apply reach_start in Hreach as [Hvis _]. congruence.
  - apply reach_start in Hreach as [_ [c Hc]]. congruence.
Qed.

Lemma collect_files_accumulates_witness :
  Forall (closed_key relative_fs toy_parse ["proj"] None
            (State [ (["proj"; "c.py"], "x = 1");
                     (["proj"; "pkg"; "a.py"], "from .b import f;from ..c import g");
                     (["proj"; "pkg"; "b.py"], "x = 2") ]
                   [ ReadOk ["proj"; "c.py"]; ReadOk ["proj"; "pkg"; "a.py"];
                     ReadOk ["proj"; "pkg"; "b.py"] ]))
         [["proj"; "c.py"]; ["proj"; "pkg"; "a.py"]; ["proj"; "pkg"; "b.py"]].
Proof.
  refine (proj2 (collect_files_accumulates relative_fs toy_parse ["proj"] None 4
                   ["proj"; "pkg"; "a.py"]
                   (State [(["proj"; "c.py"], "x = 1")] [ReadOk ["proj"; "c.py"]])
                   (State _ _) _ _)).
  - constructor; [|constructor]. intros text nds tgt Hread Hparse Htgt.
    vm_compute in Hread. injection Hread as <-.
    vm_compute in Hparse. injection Hparse as <-.
    vm_compute in Htgt. by apply elem_of_nil in Htgt.
  - vm_compute; reflexivity.
Defined.

(** *** Two runs on one snapshot *)

Lemma should_ignore_in_perm markers p root spec :
  markers ≡ₚ ignore_set →
  should_ignore_in markers p root spec = should_ignore p root spec.
Proof.
  intros Hperm. unfold should_ignore_in, should_ignore. cbv zeta.
  assert (∀ parts : list string,
            existsb (λ part, bool_decide (part ∈ markers)) parts
            = existsb (λ part, bool_decide (part ∈ ignore_set)) parts) as ->; [|done].
  induction parts as [|part parts IH]; [done|]. cbn [existsb]. rewrite IH. f_equal.
  apply bool_decide_ext. by rewrite Hperm.
Qed.

Lemma visit_paths_ext root (rec1 rec2 : path → state → option state) :
  (∀ fp st, rec1 fp st = rec2 fp st) →
  ∀ l st, visit_paths root rec1 l st = visit_paths root rec2 l st.
Proof.
  intros Hrec l. induction l as [|fp l IH]; intros st; [done|]. cbn [visit_paths].
  rewrite Hrec. case_bool_decide; [|done]. by destruct (rec2 fp st).
Qed.

Lemma visit_nodes_ext fs root (rec1 rec2 : path → state → option state) abs_path :
  (∀ fp st, rec1 fp st = rec2 fp st) →
  ∀ nodes st, visit_nodes fs root rec1 abs_path nodes st
              = visit_nodes fs root rec2 abs_path nodes st.
Proof.
  intros Hrec nodes. induction nodes as [|node nodes IH]; intros st; [done|].
  cbn [visit_nodes]. rewrite (visit_paths_ext root rec1 rec2 Hrec).
  by destruct (visit_paths root rec2 _ st).
Qed.

(** The order of the marker set does not reach the traversal. *)
Lemma collect_files_in_perm markers fs parse root spec fuel :
  markers ≡ₚ ignore_set →
  ∀ fp st, collect_files_in markers fs parse root spec fuel fp st
           = collect_files fs parse root spec fuel fp st.
Proof.
  intros Hperm. induction fuel as [|fuel IH]; intros fp st; [done|].
  cbn [collect_files_in collect_files]. cbv zeta.
  rewrite should_ignore_in_perm by done.
  repeat case_match; try done. by apply visit_nodes_ext.
Qed.

(** C9.  Two runs on one snapshot of the disk, from the same entry file,
    may differ in the order their interpreters give the marker set and in
    how deep they are allowed to recurse.  Every such run returns, and any
    two of them return the same dictionary: the same keys in the same
    order with the same contents (and the same output).  What they return
    is fixed by the snapshot: the keys are, without repetition, exactly the
    files reached from the entry file, each with the content the snapshot
    holds for it. *)
Theorem collect_deterministic fs parse root spec entry :
  (∀ markers, markers ≡ₚ ignore_set →
     is_Some (collect_files_in markers fs parse root spec (S (size fs)) entry empty_state)) ∧
  (∀ markers1 markers2 fuel1 fuel2 st1 st2,
     markers1 ≡ₚ ignore_set → markers2 ≡ₚ ignore_set →
     collect_files_in markers1 fs parse root spec fuel1 entry empty_state = Some st1 →
     collect_files_in markers2 fs parse root spec fuel2 entry empty_state = Some st2 →
     collected st1 = collected st2 ∧ out st1 = out st2) ∧
  (∀ markers fuel st,
     markers ≡ₚ ignore_set →
     collect_files_in markers fs parse root spec fuel entry empty_state = Some st →
     NoDup (keys (collected st)) ∧
     (∀ k, k ∈ keys (collected st) ↔ reach fs parse root spec (abspath entry) k) ∧
     (∀ k v, (k, v) ∈ collected st → read_text fs k = Some v)).
Proof.
  split; [|split].
  - intros markers Hperm. rewrite collect_files_in_perm by done. apply collect_total.
  - intros markers1 markers2 fuel1 fuel2 st1 st2 Hp1 Hp2.
    rewrite !collect_files_in_perm by done. intros H1 H2.
    by rewrite (collect_files_fuel_irrelevant _ _ _ _ _ _ _ _ _ _ H1 H2).
  - intros markers fuel st Hperm. rewrite collect_files_in_perm by done. intros Hrun.
    pose proof (collect_files_extends _ _ _ _ _ _ _ _ Hrun)
      as (added & ? & Hc & _ & _ & Hnd & _ & Hdisk).
    simpl in Hc. apply collect_files_visit in Hrun.
    pose proof (proj1 (visit_closed fs parse root spec) _ _ _ Hrun) as [Hs Hk].
    pose proof (proj1 (visit_reach fs parse root spec) _ _ _ Hrun) as Hsound.
    split; [by rewrite Hc|]. split.
    + intros k. split.
      * intros Hin. destruct (Hsound k Hin) as [Hnil|?]; [|done].
        by apply elem_of_nil in Hnil.
      * intros Hreach. eapply reach_closed; [|exact Hreach|].
        -- intros k' Hk'. destruct (Hk k' Hk') as [Hnil|?]; [|done].
           by apply elem_of_nil in Hnil.
        -- destruct Hs as [?|[Hign|Hun]]; [done|exfalso..].
           ++ apply reach_start in Hreach as [Hvis _]. congruence.
           ++ apply reach_start in Hreach as [_ [c Hc']]. congruence.
    + intros k v Hkv. rewrite Hc in Hkv. eauto.
Qed.

Lemma collect_deterministic_witness :
  ∃ st1 st2,
    collect_files_in (reverse ignore_set) repo_fs toy_parse ["home"; "repo"] None 9
      ["home"; "repo"; "main.py"] empty_state = Some st1 ∧
    collect_files_in ("env" :: ".git" :: "venv" :: ".venv" :: ".gitmodules"
                      :: "site-packages" :: [".gitignore"])
      repo_fs toy_parse ["home"; "repo"] None 5
      ["home"; "repo"; "main.py"] empty_state = Some st2 ∧
    length (collected st1) = 4 ∧
    collected st1 = collected st2 ∧ out st1 = out st2.
Proof.
  eexists _, _. split; [vm_compute; reflexivity|]. split; [vm_compute; reflexivity|].
  split; [reflexivity|].
  refine (proj1 (proj2 (collect_deterministic repo_fs toy_parse ["home"; "repo"] None
                          ["home"; "repo"; "main.py"]))
            (reverse ignore_set)
            ("env" :: ".git" :: "venv" :: ".venv" :: ".gitmodules"
             :: "site-packages" :: [".gitignore"]) 9 5 _ _ _ _ _ _).
  - apply reverse_Permutation.
  - apply (bool_decide_unpack _). by vm_compute.
  - vm_compute; reflexivity.
  - vm_compute; reflexivity.
Defined.
